(** * freetype-harbuzz-icu: layout and compositing pipeline

    A shallow embedding of [src/freetype-harbuzz-icu.cpp]: the glyph
    compositor [DrawGlyph], the text stage of [main] (ICU conversion and
    reordering, HarfBuzz shaping) and its two glyph walks (the metrics pass
    and the render pass), followed by the properties of the design document
    that are settled on them.

    Conventions.
    - [FT_Int] is C [int] (32 bits); [FT_Pos] is C [long], taken as 64 bits
      (LP64, the ABI on which FreeType, HarfBuzz and ICU are built together
      on Linux and macOS).  A value of either type is a [Z]; in [DrawGlyph]
      and in the rendering section of [main] every arithmetic operation is
      followed by the wrap of its C type.  Signed overflow is undefined in
      C++; the wrap is the behaviour of the usual compilers, and a result
      below that rests on it says so.
    - The lengths of the text stage are the [int32_t] lengths ICU returns,
      held in a [size_t]; they are kept as they are.
    - [unsigned char] is [byte]; [|=] promotes to [int], ors and truncates.
    - An array is a [list]; an access out of its range has no defined
      behaviour and is [None]. *)

From Stdlib Require Import ZArith List Lia Bool Permutation.
From stdpp Require Import base option list.
From coqutil Require Import Byte.

Local Open Scope Z_scope.

(** ** Machine integers *)

Definition wrap_signed (bits z : Z) : Z :=
  (z + 2 ^ (bits - 1)) mod 2 ^ bits - 2 ^ (bits - 1).

(** Conversion to [int] / [FT_Int]. *)
Definition to_int (z : Z) : Z := wrap_signed 32 z.
(** Conversion to [long] / [FT_Pos]. *)
Definition to_long (z : Z) : Z := wrap_signed 64 z.
(** Conversion to [unsigned int]. *)
Definition to_uint (z : Z) : Z := z mod 2 ^ 32.

Definition INT_MAX : Z := 2147483647.
Definition INT_MIN : Z := -2147483648.

Definition int_range (z : Z) : Prop := INT_MIN <= z <= INT_MAX.

(** [a |= b] on [unsigned char]. *)
Definition uchar_or (a b : byte) : byte :=
  byte.of_Z (Z.lor (byte.unsigned a) (byte.unsigned b)).

(** ** FreeType data *)

(** [FT_Bitmap], the fields [DrawGlyph] reads: [rows] and [width] are
    [unsigned int], [buffer] is [unsigned char *]. *)
Record FT_Bitmap := {
  bitmap_rows : Z;
  bitmap_width : Z;
  bitmap_buffer : list byte
}.

Record FT_Vector := { vector_x : Z; vector_y : Z }.

Record FT_BBox := { xMin : Z; yMin : Z; xMax : Z; yMax : Z }.

(** The glyph slot after [FT_Load_Glyph], the fields [main] reads. *)
Record FT_GlyphSlotRec := {
  advance : FT_Vector;
  metrics_height : Z;
  metrics_horiBearingY : Z;
  bitmap : FT_Bitmap;
  bitmap_left : Z;
  bitmap_top : Z
}.

(** ** DrawGlyph *)

(** [image[index] |= v]. *)
Definition image_or_assign (image : list byte) (index : Z) (v : byte)
  : option (list byte) :=
  if (0 <=? index) && (index <? Z.of_nat (length image)) then
    old ← image !! Z.to_nat index;
    Some (<[Z.to_nat index := uchar_or old v]> image)
  else None.

(** [glyphBitmap->buffer[q * glyphBitmap->width + p]]: the index is computed
    in [unsigned int]. *)
Definition bitmap_pixel (glyphBitmap : FT_Bitmap) (p q : Z) : option byte :=
  bitmap_buffer glyphBitmap
    !! Z.to_nat (to_uint (q * bitmap_width glyphBitmap + p)).

(** A [for] loop with two counters that runs [n] times,
    [for (i = i0, p = p0; ...; i++, p++) body]. *)
Fixpoint for_loop {St : Type} (n : nat) (i p : Z)
    (body : Z -> Z -> St -> option St) (s : St) : option St :=
  match n with
  | O => Some s
  | S n' =>
      s' ← body i p s;
      for_loop n' (to_int (i + 1)) (to_int (p + 1)) body s'
  end.

(** The body of the inner loop of [DrawGlyph]. *)
Definition DrawGlyph_body (width height : Z) (glyphBitmap : FT_Bitmap)
    (i p j q : Z) (image : list byte) : option (list byte) :=
  if (i <? 0) || (j <? 0) || (i >=? width) || (j >=? height) then
    Some image
  else
    v ← bitmap_pixel glyphBitmap p q;
    image_or_assign image (to_int (j * width + i)) v.

(** [for (i = x, p = 0; i < xMax; i++, p++)] runs [xMax - x] times when
    [x < xMax] and not at all otherwise; the same for the loop on [j]. *)
Definition DrawGlyph (image : list byte) (width height : Z)
    (glyphBitmap : FT_Bitmap) (x y : Z) : option (list byte) :=
  let xMax := to_int (to_uint (x + bitmap_width glyphBitmap)) in
  let yMax := to_int (to_uint (y + bitmap_rows glyphBitmap)) in
  for_loop (Z.to_nat (xMax - x)) x 0
    (fun i p image =>
       for_loop (Z.to_nat (yMax - y)) y 0
         (fun j q image =>
            DrawGlyph_body width height glyphBitmap i p j q image)
         image)
    image.

(** A canvas as [main] builds it: [width * height] bytes, the product
    computed in [int]. *)
Definition canvas_wf (image : list byte) (width height : Z) : Prop :=
  0 <= width /\ 0 <= height /\ width * height <= INT_MAX /\
  Z.of_nat (length image) = width * height.

(** A glyph bitmap as the rasterizer hands it out: [rows] lines of [width]
    bytes each (the pitch of an 8-bit bitmap is its width). *)
Definition bitmap_wf (b : FT_Bitmap) : Prop :=
  0 <= bitmap_width b <= INT_MAX /\ 0 <= bitmap_rows b <= INT_MAX /\
  bitmap_width b * bitmap_rows b <= INT_MAX /\
  Z.of_nat (length (bitmap_buffer b)) = bitmap_width b * bitmap_rows b.

(** ** The rasterizer *)

(** FreeType is an external collaborator: what [main] observes of it is the
    glyph slot left by [FT_Set_Transform (face, NULL, &translation)] followed
    by [FT_Load_Glyph (face, codepoint, FT_LOAD_RENDER)], and the control box
    that [FT_Get_Glyph] and [FT_Glyph_Get_CBox (glyph,
    ft_glyph_bbox_subpixels, _)] report for that slot.  The return codes of
    these calls are not read by [main]. *)
Class Rasterizer := {
  FT_Load_Glyph : FT_Vector -> Z -> FT_GlyphSlotRec;
  FT_Glyph_Get_CBox : FT_GlyphSlotRec -> FT_BBox
}.

(** The states of a loop [for (a : l) s = step s a] at the start of each of
    its iterations. *)
Fixpoint states_before {St A : Type} (step : St -> A -> St) (s : St)
    (l : list A) : list St :=
  match l with
  | [] => []
  | a :: l' => s :: states_before step (step s a) l'
  end.

(** [translation.x += advance.x; translation.y += advance.y] in [FT_Pos]. *)
Definition advance_pen (translation adv : FT_Vector) : FT_Vector :=
  {| vector_x := to_long (vector_x translation + vector_x adv);
     vector_y := to_long (vector_y translation + vector_y adv) |}.

Section Passes.
Context {R : Rasterizer}.

(** *** The metrics pass (first glyph walk of [main]) *)

Record MetricsState := {
  m_translation : FT_Vector;
  m_bbox : FT_BBox;
  m_aboveOriginShift : Z
}.

Definition metrics_init : MetricsState :=
  {| m_translation := {| vector_x := 0; vector_y := 0 |};
     m_bbox := {| xMin := INT_MAX; yMin := INT_MAX;
                  xMax := INT_MIN; yMax := INT_MIN |};
     m_aboveOriginShift := INT_MIN |}.

Definition metrics_step (st : MetricsState) (codepoint : Z) : MetricsState :=
  let glyphSlot := FT_Load_Glyph (m_translation st) codepoint in
  let glyphBbox := FT_Glyph_Get_CBox glyphSlot in
  let bbox := m_bbox st in
  let temp :=
    to_int (to_long (metrics_height glyphSlot
                     - metrics_horiBearingY glyphSlot)) in
  {| m_translation := advance_pen (m_translation st) (advance glyphSlot);
     m_bbox :=
       {| xMin := if xMin glyphBbox <? xMin bbox
                  then xMin glyphBbox else xMin bbox;
          yMin := if yMin glyphBbox <? yMin bbox
                  then yMin glyphBbox else yMin bbox;
          xMax := if xMax glyphBbox >? xMax bbox
                  then xMax glyphBbox else xMax bbox;
          yMax := if yMax glyphBbox >? yMax bbox
                  then yMax glyphBbox else yMax bbox |};
     m_aboveOriginShift :=
       if temp >? m_aboveOriginShift st
       then temp else m_aboveOriginShift st |}.

Definition metrics_pass (glyphCodepoints : list Z) : MetricsState :=
  fold_left metrics_step glyphCodepoints metrics_init.

(** The pen ([translation]) handed to [FT_Set_Transform] at each glyph of
    the metrics pass, and the control box queried there. *)
Definition metrics_pens (glyphCodepoints : list Z) : list FT_Vector :=
  m_translation <$> states_before metrics_step metrics_init glyphCodepoints.

Definition metrics_boxes (glyphCodepoints : list Z) : list FT_BBox :=
  zip_with (fun st codepoint =>
              FT_Glyph_Get_CBox (FT_Load_Glyph (m_translation st) codepoint))
    (states_before metrics_step metrics_init glyphCodepoints)
    glyphCodepoints.

(** *** Canvas sizing *)

(** [FT_Int width = (bbox.xMax - bbox.xMin) / 64]: subtraction and
    division in [FT_Pos], the quotient truncated toward zero, the result
    converted to [FT_Int]. *)
Definition canvas_width (bbox : FT_BBox) : Z :=
  to_int (Z.quot (to_long (xMax bbox - xMin bbox)) 64).
Definition canvas_height (bbox : FT_BBox) : Z :=
  to_int (Z.quot (to_long (yMax bbox - yMin bbox)) 64).

(** [new unsigned char[n]()] for an [int] [n]: a negative [n] throws
    [std::bad_array_new_length]; otherwise [n] zero bytes. *)
Definition new_uchar_array (n : Z) : option (list byte) :=
  if n <? 0 then None else Some (replicate (Z.to_nat n) Byte.x00).

(** *** The render pass (second glyph walk of [main]) *)

(** [r_image] is [None] once a [DrawGlyph] call has left the defined
    behaviour. *)
Record RenderState := {
  r_translation : FT_Vector;
  r_image : option (list byte)
}.

Definition render_init (aboveOriginShift : Z) (image : list byte)
  : RenderState :=
  {| r_translation := {| vector_x := 0; vector_y := aboveOriginShift |};
     r_image := Some image |}.

Definition render_step (width height : Z) (st : RenderState)
    (codepoint : Z) : RenderState :=
  let glyphSlot := FT_Load_Glyph (r_translation st) codepoint in
  {| r_translation := advance_pen (r_translation st) (advance glyphSlot);
     r_image :=
       image ← r_image st;
       DrawGlyph image width height (bitmap glyphSlot)
         (bitmap_left glyphSlot)
         (to_int (height - bitmap_top glyphSlot)) |}.

Definition render_pass (width height aboveOriginShift : Z)
    (image : list byte) (glyphCodepoints : list Z) : RenderState :=
  fold_left (render_step width height) glyphCodepoints
    (render_init aboveOriginShift image).

(** The pen at each glyph of the render pass, and the glyph slot loaded
    there. *)
Definition render_pens (width height aboveOriginShift : Z)
    (image : list byte) (glyphCodepoints : list Z) : list FT_Vector :=
  r_translation <$>
    states_before (render_step width height)
      (render_init aboveOriginShift image) glyphCodepoints.

(** The glyph slots loaded by the render loop from the state [st] on, and
    by the whole render pass. *)
Definition render_slots_from (width height : Z) (st : RenderState)
    (glyphCodepoints : list Z) : list FT_GlyphSlotRec :=
  zip_with FT_Load_Glyph
    (r_translation <$>
       states_before (render_step width height) st glyphCodepoints)
    glyphCodepoints.

Definition render_slots (width height aboveOriginShift : Z)
    (image : list byte) (glyphCodepoints : list Z) : list FT_GlyphSlotRec :=
  render_slots_from width height (render_init aboveOriginShift image)
    glyphCodepoints.

(** *** The rendering section of [main] *)

(** How the rendering section ends.  [UsageError] and [ResourceInitError]
    are the two kinds of [return -1] of [main]; [EncodingError] and
    [EmptyRunError] are the other two names of the design document's error
    taxonomy, which no statement of [main] raises. *)
Inductive PipelineError :=
| UsageError
| ResourceInitError
| EncodingError
| EmptyRunError.

Inductive Outcome :=
| Failed (e : PipelineError)
    (** a diagnostic on [stderr] and [return -1] *)
| Thrown_bad_array_new_length (n : Z)
    (** [new unsigned char[n]] threw; nothing catches it *)
| Undefined
    (** an access outside an array *)
| Printed (width height : Z) (image : list byte)
    (** [PrintPGM (image, width, height)] and [return 0] *).

Definition glyph_stage (glyphCodepoints : list Z) : Outcome :=
  let m := metrics_pass glyphCodepoints in
  let width := canvas_width (m_bbox m) in
  let height := canvas_height (m_bbox m) in
  match new_uchar_array (to_int (width * height)) with
  | None => Thrown_bad_array_new_length (to_int (width * height))
  | Some image =>
      match r_image (render_pass width height (m_aboveOriginShift m)
                       image glyphCodepoints) with
      | None => Undefined
      | Some image' => Printed width height image'
      end
  end.
End Passes.

(** ** The text stage *)

(** [UErrorCode]: [U_ZERO_ERROR] is [0], failures are positive. *)
Definition U_ZERO_ERROR : Z := 0.
Definition U_BUFFER_OVERFLOW_ERROR : Z := 15.
Definition U_STRING_NOT_TERMINATED_WARNING : Z := -124.
Definition U_FAILURE (error : Z) : bool := 0 <? error.

(** ICU and HarfBuzz are external collaborators.  Each ICU call takes the
    capacity of its destination and the status so far, and gives the code
    units it wrote, the length it returns and the status it leaves.
    - [ucnv_open]: the status after [ucnv_open ("UTF-8", &error)];
    - [ucnv_toUChars destCapacity src error];
    - [ubidi_writeReordered text length destSize error]: [ubidi_openSized],
      [ubidi_setPara (bidi, text, length, HB_DIRECTION_LTR, NULL, &error)]
      and [ubidi_writeReordered (bidi, dest, destSize, UBIDI_DO_MIRRORING,
      &error)];
    - [ucnv_fromUChars destCapacity src srcLength error];
    - [hb_shape utf8]: the glyph indices left in the buffer by
      [hb_buffer_add_utf8], the direction and script settings and
      [hb_shape]. *)
Class TextEngines := {
  ucnv_open : Z -> Z;
  ucnv_toUChars : Z -> list byte -> Z -> list Z * Z * Z;
  ubidi_writeReordered : list Z -> Z -> Z -> Z -> list Z * Z * Z;
  ucnv_fromUChars : Z -> list Z -> Z -> Z -> list byte * Z * Z;
  hb_shape : list byte -> list Z
}.

(** A zero-initialised array of [capacity] elements after a callee wrote
    [written] at its start. *)
Definition buffer_store {A : Type} (capacity : Z) (zero : A) (written : list A)
  : list A :=
  take (Z.to_nat capacity)
    (written ++ replicate (Z.to_nat capacity - length written)%nat zero).

(** [std::vector<char>::resize (n)]. *)
Definition vector_resize (n : Z) (v : list byte) : list byte :=
  take (Z.to_nat n) v ++ replicate (Z.to_nat n - length v)%nat Byte.x00.

Section Main.
Context {E : TextEngines} {R : Rasterizer}.

(** The sizes of the two conversion buffers. *)
Definition utf16_capacity (str : list byte) : Z :=
  Z.of_nat (length str) + 1.
Definition utf8_capacity (length : Z) : Z := length * 2.

(** "ICU reordering" in [main]: the UTF-8 text handed to the shaper and
    the status [error] holds at the end. *)
Definition text_stage (str : list byte) : list byte * Z :=
  let error := ucnv_open U_ZERO_ERROR in
  let '(written, length, error) :=
    ucnv_toUChars (utf16_capacity str) str error in
  let utf16str := buffer_store (utf16_capacity str) 0 written in
  let '(written, length', error) :=
    ubidi_writeReordered utf16str length (length + 1) error in
  let utf16strReordered := buffer_store (length + 1) 0 written in
  let utf8str := replicate (Z.to_nat (utf8_capacity length')) Byte.x00 in
  let '(written, length'', error) :=
    ucnv_fromUChars (Z.of_nat (List.length utf8str)) utf16strReordered
      length' error in
  let utf8str :=
    buffer_store (utf8_capacity length') Byte.x00 written in
  (vector_resize length'' utf8str, error).

End Main.

(** ** Vocabulary of the statements *)

(** The canvas index of the pixel in column [i], row [j]. *)
Definition pixel_index (width i j : Z) : nat := Z.to_nat (j * width + i).

(** The bounds [xMax] and [yMax] of the two loops of [DrawGlyph]. *)
Definition glyph_xMax (glyphBitmap : FT_Bitmap) (x : Z) : Z :=
  to_int (to_uint (x + bitmap_width glyphBitmap)).
Definition glyph_yMax (glyphBitmap : FT_Bitmap) (y : Z) : Z :=
  to_int (to_uint (y + bitmap_rows glyphBitmap)).

(** The pixels the loops of [DrawGlyph] visit. *)
Definition visited (glyphBitmap : FT_Bitmap) (x y i j : Z) : bool :=
  (x <=? i) && (i <? glyph_xMax glyphBitmap x)
  && (y <=? j) && (j <? glyph_yMax glyphBitmap y).

(** The destination rectangle of a glyph bitmap drawn at [(x, y)]. *)
Definition in_rectangle (glyphBitmap : FT_Bitmap) (x y i j : Z) : Prop :=
  x <= i < x + bitmap_width glyphBitmap /\
  y <= j < y + bitmap_rows glyphBitmap.

(** The coverage of the bitmap at column [p], row [q]. *)
Definition source_pixel (glyphBitmap : FT_Bitmap) (p q : Z) : byte :=
  default Byte.x00 (bitmap_pixel glyphBitmap p q).

(** The rasterizer hands out well-formed bitmaps, with an [FT_Int] left
    bearing. *)
Definition rasterizer_wf (R : Rasterizer) : Prop :=
  forall translation codepoint,
    bitmap_wf (bitmap (FT_Load_Glyph translation codepoint)) /\
    int_range (bitmap_left (FT_Load_Glyph translation codepoint)).

(** Pointwise order on canvases of the same size. *)
Definition image_le (image image' : list byte) : Prop :=
  length image' = length image /\
  forall n a b, image !! n = Some a -> image' !! n = Some b ->
    byte.unsigned a <= byte.unsigned b.

(** The pixel [(i, j)] lies in the destination rectangle of no glyph slot
    of [slots], each drawn where the render pass draws it. *)
Definition uncovered (height : Z) (slots : list FT_GlyphSlotRec) (i j : Z)
  : Prop :=
  forall slot, slot ∈ slots ->
    ~ in_rectangle (bitmap slot) (bitmap_left slot)
        (to_int (height - bitmap_top slot)) i j.

(** The canvases [image] and [image'] agree on the pixels that satisfy
    [keep]. *)
Definition same_on (width height : Z) (keep : Z -> Z -> Prop)
    (image image' : list byte) : Prop :=
  forall i j, 0 <= i < width -> 0 <= j < height -> keep i j ->
    image' !! pixel_index width i j = image !! pixel_index width i j.

(** A box with its corners in order. *)
Definition bbox_ordered (b : FT_BBox) : Prop :=
  xMin b <= xMax b /\ yMin b <= yMax b.

(** The box [outer] reaches at least as far as [inner] on each side. *)
Definition bbox_contains (outer inner : FT_BBox) : Prop :=
  xMin outer <= xMin inner /\ yMin outer <= yMin inner /\
  xMax inner <= xMax outer /\ yMax inner <= yMax outer.

(** The pen moved up by [shift], in [FT_Pos]. *)
Definition shift_pen (shift : Z) (pen : FT_Vector) : FT_Vector :=
  {| vector_x := vector_x pen; vector_y := to_long (vector_y pen + shift) |}.

(** The advance of a glyph does not depend on the translation set on the
    face ([FT_Set_Transform] with a null matrix moves the outline, not the
    advance). *)
Definition advance_fixed (R : Rasterizer) : Prop :=
  forall translation translation' codepoint,
    advance (FT_Load_Glyph translation codepoint)
    = advance (FT_Load_Glyph translation' codepoint).

(** ** Sample data *)

(** A 4 x 3 canvas with some ink and a 2 x 2 bitmap. *)
Definition sample_image : list byte :=
  [Byte.x00; Byte.x00; Byte.x00; Byte.x0f;
   Byte.x00; Byte.x10; Byte.x00; Byte.x00;
   Byte.x00; Byte.x00; Byte.xff; Byte.x00].

Definition sample_bitmap : FT_Bitmap :=
  {| bitmap_rows := 2; bitmap_width := 2;
     bitmap_buffer := [Byte.x01; Byte.x02; Byte.xf0; Byte.x80] |}.

(** The canvas [main] allocates for a box of 4 x 2 pixels. *)
Definition sample_zeros : list byte := replicate 8 Byte.x00.

(** A rasterizer in the manner of FreeType for a font whose every glyph is
    [sample_bitmap], two pixels wide and two high, sitting one pixel above
    and one below the baseline, with an advance of two pixels.  The bitmap
    is placed at the pixel of the pen; the control box is the box of the
    bitmap in 26.6 units. *)
Definition sample_load (translation : FT_Vector) (codepoint : Z)
  : FT_GlyphSlotRec :=
  {| advance := {| vector_x := 128; vector_y := 0 |};
     metrics_height := 128;
     metrics_horiBearingY := 64;
     bitmap := sample_bitmap;
     bitmap_left := to_int (vector_x translation / 64);
     bitmap_top := to_int (vector_y translation / 64 + 1) |}.

Definition bitmap_cbox (glyphSlot : FT_GlyphSlotRec) : FT_BBox :=
  {| xMin := bitmap_left glyphSlot * 64;
     yMin := (bitmap_top glyphSlot - bitmap_rows (bitmap glyphSlot)) * 64;
     xMax := (bitmap_left glyphSlot + bitmap_width (bitmap glyphSlot)) * 64;
     yMax := bitmap_top glyphSlot * 64 |}.

Definition sample_rasterizer : Rasterizer :=
  {| FT_Load_Glyph := sample_load; FT_Glyph_Get_CBox := bitmap_cbox |}.

(** A rasterizer whose one glyph is [2 ^ 31] pixels wide: its control box
    is [2 ^ 37] units of 1/64 pixel wide and one pixel high. *)
Definition wide_rasterizer : Rasterizer :=
  {| FT_Load_Glyph := sample_load;
     FT_Glyph_Get_CBox := fun _ =>
       {| xMin := 0; yMin := 0; xMax := 2 ^ 37; yMax := 64 |} |}.

(** ** Encoding forms *)

(** The encoding converter is an external collaborator (ICU); the
    repository has no code of it.  The statements on the sizes of the
    conversion buffers measure a text, given as Unicode scalar values, by
    the UTF-8 and UTF-16 encoding forms of the Unicode Standard, which is
    what a conforming converter writes for well-formed text. *)
Definition scalar_value (c : Z) : Prop :=
  0 <= c < 55296 \/ 57344 <= c < 1114112.

Definition utf8_encode_point (c : Z) : list byte :=
  if c <? 128 then [byte.of_Z c]
  else if c <? 2048 then
    [byte.of_Z (Z.lor 192 (Z.shiftr c 6));
     byte.of_Z (Z.lor 128 (Z.land c 63))]
  else if c <? 65536 then
    [byte.of_Z (Z.lor 224 (Z.shiftr c 12));
     byte.of_Z (Z.lor 128 (Z.land (Z.shiftr c 6) 63));
     byte.of_Z (Z.lor 128 (Z.land c 63))]
  else
    [byte.of_Z (Z.lor 240 (Z.shiftr c 18));
     byte.of_Z (Z.lor 128 (Z.land (Z.shiftr c 12) 63));
     byte.of_Z (Z.lor 128 (Z.land (Z.shiftr c 6) 63));
     byte.of_Z (Z.lor 128 (Z.land c 63))].

Definition utf16_encode_point (c : Z) : list Z :=
  if c <? 65536 then [c]
  else [55296 + Z.shiftr (c - 65536) 10; 56320 + Z.land (c - 65536) 1023].

Definition utf8_encode (text : list Z) : list byte :=
  concat (utf8_encode_point <$> text).
Definition utf16_encode (text : list Z) : list Z :=
  concat (utf16_encode_point <$> text).

Definition continuation (b : byte) : bool :=
  (128 <=? byte.unsigned b) && (byte.unsigned b <? 192).

(** Decoding; a byte that starts no complete sequence becomes U+FFFD. *)
Fixpoint utf8_decode (s : list byte) : list Z :=
  match s with
  | [] => []
  | b0 :: r =>
      let u0 := byte.unsigned b0 in
      if u0 <? 128 then u0 :: utf8_decode r
      else
        match r with
        | [] => [65533]
        | b1 :: r1 =>
            let u1 := Z.land (byte.unsigned b1) 63 in
            if (192 <=? u0) && (u0 <? 224) && continuation b1 then
              (Z.shiftl (Z.land u0 31) 6 + u1) :: utf8_decode r1
            else
              match r1 with
              | [] => 65533 :: utf8_decode r
              | b2 :: r2 =>
                  let u2 := Z.land (byte.unsigned b2) 63 in
                  if (224 <=? u0) && (u0 <? 240) && continuation b1
                     && continuation b2 then
                    (Z.shiftl (Z.land u0 15) 12 + Z.shiftl u1 6 + u2)
                      :: utf8_decode r2
                  else
                    match r2 with
                    | [] => 65533 :: utf8_decode r
                    | b3 :: r3 =>
                        let u3 := Z.land (byte.unsigned b3) 63 in
                        if (240 <=? u0) && (u0 <? 248) && continuation b1
                           && continuation b2 && continuation b3 then
                          (Z.shiftl (Z.land u0 7) 18 + Z.shiftl u1 12
                           + Z.shiftl u2 6 + u3) :: utf8_decode r3
                        else 65533 :: utf8_decode r
                    end
              end
        end
  end.

Fixpoint utf16_decode (s : list Z) : list Z :=
  match s with
  | [] => []
  | u0 :: r =>
      match r with
      | u1 :: r1 =>
          if (55296 <=? u0) && (u0 <? 56320) && (56320 <=? u1) && (u1 <? 57344)
          then (65536 + Z.shiftl (u0 - 55296) 10 + (u1 - 56320))
                 :: utf16_decode r1
          else u0 :: utf16_decode r
      | [] => [u0]
      end
  end.

(** ** Sample engines *)

(** Engines that behave as ICU and HarfBuzz do on well-formed text made of
    right-to-left letters, left-to-right letters and neutrals without
    nesting: every call returns at once when the status it receives is a
    failure; a converter writes what fits its destination, returns the
    length of the whole conversion and reports [U_BUFFER_OVERFLOW_ERROR]
    when that exceeds the capacity; the reordering reverses each run of
    right-to-left code units (U+0590..U+08FF); the shaper maps each code
    point to the glyph of the same index. *)
Definition is_rtl (u : Z) : bool := (1424 <=? u) && (u <=? 2303).

Fixpoint reverse_rtl_runs (run l : list Z) : list Z :=
  match l with
  | [] => run
  | u :: l' =>
      if is_rtl u then reverse_rtl_runs (u :: run) l'
      else run ++ u :: reverse_rtl_runs [] l'
  end.

(** What a conversion leaves: [u_terminateChars] adds the terminator when
    there is room for it, warns when there is none and reports the overflow
    when the conversion itself did not fit. *)
Definition convert {A : Type} (capacity : Z) (converted : list A) (error : Z)
  : list A * Z * Z :=
  (take (Z.to_nat capacity) converted,
   Z.of_nat (length converted),
   if capacity <? Z.of_nat (length converted) then U_BUFFER_OVERFLOW_ERROR
   else if capacity =? Z.of_nat (length converted)
        then U_STRING_NOT_TERMINATED_WARNING
        else if error =? U_STRING_NOT_TERMINATED_WARNING then U_ZERO_ERROR
             else error).

Definition sample_engines : TextEngines :=
  {| ucnv_open := fun error => error;
     ucnv_toUChars := fun destCapacity src error =>
       if U_FAILURE error then ([], 0, error)
       else convert destCapacity (utf16_encode (utf8_decode src)) error;
     ubidi_writeReordered := fun text length destSize error =>
       if U_FAILURE error then ([], 0, error)
       else convert destSize
              (reverse_rtl_runs [] (take (Z.to_nat length) text)) error;
     ucnv_fromUChars := fun destCapacity src srcLength error =>
       if U_FAILURE error then ([], 0, error)
       else convert destCapacity
              (utf8_encode (utf16_decode (take (Z.to_nat srcLength) src)))
              error;
     hb_shape := utf8_decode |}.

(** The text of line 94 of the source, one of the sample strings of [main]:
    U+2588, the four Arabic letters U+0639 U+0631 U+0628 U+064A, U+2588. *)
Definition blocks_text : list Z := [9608; 1593; 1585; 1576; 1610; 9608].
Definition blocks_str : list byte := utf8_encode blocks_text.

(** ** PrintPGM and the glyph copy loop *)

(** A [for] loop with one counter that runs [n] times,
    [for (i = i0; ...; i++) body]; [wrap] is the wrap of the type of the
    counter. *)
Fixpoint for_count {St : Type} (wrap : Z -> Z) (n : nat) (i : Z)
    (body : Z -> St -> option St) (s : St) : option St :=
  match n with
  | O => Some s
  | S n' => s' ← body i s; for_count wrap n' (wrap (i + 1)) body s'
  end.

(** The calls [PrintPGM] makes on the standard output. *)
Inductive stdout_call :=
| printf_P2
    (** [printf ("P2\n")] *)
| printf_size (width height : Z)
    (** [printf ("%d %d\n", width, height)] *)
| printf_255
    (** [printf ("255\n")] *)
| printf_pixel (v : Z)
    (** [printf ("%d ", v)] *)
| putchar_newline
    (** [putchar ('\n')] *).

(** [image[index]], read. *)
Definition image_read (image : list byte) (index : Z) : option byte :=
  if 0 <=? index then image !! Z.to_nat index else None.

(** [PrintPGM]: its calls on the standard output, in order. *)
Definition PrintPGM (image : list byte) (width height : Z)
  : option (list stdout_call) :=
  for_count to_int (Z.to_nat height) 0
    (fun i out =>
       out' ← for_count to_int (Z.to_nat width) 0
                (fun j out =>
                   v ← image_read image (to_int (i * width + j));
                   Some (out ++ [printf_pixel (byte.unsigned v)]))
                out;
       Some (out' ++ [putchar_newline]))
    [printf_P2; printf_size width height; printf_255].

(** What an outcome of [main] leaves on the standard output. *)
Definition stdout_of (o : Outcome) : option (list stdout_call) :=
  match o with
  | Printed width height image => PrintPGM image width height
  | Undefined => None
  | Failed _ | Thrown_bad_array_new_length _ => Some []
  end.

(** [hb_glyph_info_t], and the loop of [main] that copies the glyph indices
    out of the shaped buffer:
    [std::vector<hb_codepoint_t> glyphCodepoints (glyphCount)] and then
    [glyphCodepoints[i] = glyphInfos[i].codepoint] for the [unsigned]
    counter [i] below [glyphCount]. *)
Record hb_glyph_info_t := { codepoint : Z; mask : Z; cluster : Z }.

Definition copy_codepoints (glyphInfos : list hb_glyph_info_t)
    (glyphCount : Z) : option (list Z) :=
  for_count to_uint (Z.to_nat glyphCount) 0
    (fun i glyphCodepoints =>
       info ← glyphInfos !! Z.to_nat i;
       if i <? Z.of_nat (length glyphCodepoints)
       then Some (<[Z.to_nat i := codepoint info]> glyphCodepoints)
       else None)
    (replicate (Z.to_nat glyphCount) 0).

(** ** Vocabulary of the further statements *)

(** The values of the [printf ("%d ", _)] calls of an output, in order, and
    the number of its [putchar ('\n')] calls. *)
Definition pixel_values (out : list stdout_call) : list Z :=
  omap (fun c => match c with printf_pixel v => Some v | _ => None end) out.

Definition newlines (out : list stdout_call) : nat :=
  length (omap (fun c => match c with putchar_newline => Some tt | _ => None end)
            out).

(** The calls of [PrintPGM] for the row [i] of a canvas. *)
Definition pgm_row (image : list byte) (width : Z) (i : nat)
  : list stdout_call :=
  ((fun v => printf_pixel (byte.unsigned v))
     <$> take (Z.to_nat width) (drop (i * Z.to_nat width) image))
  ++ [putchar_newline].

(** The value of a pixel after the glyph slots of [slots] have been drawn,
    in order, where the render pass draws them. *)
Definition or_slots (height : Z) (slots : list FT_GlyphSlotRec) (i j : Z)
    (v : byte) : byte :=
  fold_left
    (fun acc slot =>
       if visited (bitmap slot) (bitmap_left slot)
            (to_int (height - bitmap_top slot)) i j
       then uchar_or acc
              (source_pixel (bitmap slot) (i - bitmap_left slot)
                 (j - to_int (height - bitmap_top slot)))
       else acc)
    slots v.

(** The glyph slots loaded by the metrics pass, and the value [temp] the
    pass computes from a slot. *)
Definition metrics_slots {R : Rasterizer} (glyphCodepoints : list Z)
  : list FT_GlyphSlotRec :=
  zip_with (fun st codepoint => FT_Load_Glyph (m_translation st) codepoint)
    (states_before metrics_step metrics_init glyphCodepoints)
    glyphCodepoints.

Definition slot_temp (glyphSlot : FT_GlyphSlotRec) : Z :=
  to_int (to_long (metrics_height glyphSlot
                   - metrics_horiBearingY glyphSlot)).

(** The sum of the advances of a glyph sequence, each taken with no
    translation set. *)
Definition advance_sum {R : Rasterizer} (glyphCodepoints : list Z)
  : Z * Z :=
  fold_right
    (fun codepoint sum =>
       let adv :=
         advance (FT_Load_Glyph {| vector_x := 0; vector_y := 0 |} codepoint)
       in (vector_x adv + sum.1, vector_y adv + sum.2))
    (0, 0) glyphCodepoints.

(** A rasterizer whose glyphs have a control box half a pixel wide and one
    pixel high. *)
Definition thin_rasterizer : Rasterizer :=
  {| FT_Load_Glyph := sample_load;
     FT_Glyph_Get_CBox := fun _ =>
       {| xMin := 0; yMin := 0; xMax := 32; yMax := 64 |} |}.

(** The numbers of characters of a text that take one byte of UTF-8 (below
    U+0080) and that take three (U+0800 to U+FFFF). *)
Definition count_ascii (text : list Z) : Z :=
  Z.of_nat (length (filter (fun c => c < 128) text)).
Definition count_three_bytes (text : list Z) : Z :=
  Z.of_nat (length (filter (fun c => 2048 <= c < 65536) text)).

(** A rasterizer whose glyphs have a control box of [2 ^ 22] units, that is
    65536 pixels, each way: the canvas has [2 ^ 32] pixels, more than an
    [int] counts. *)
Definition square_rasterizer : Rasterizer :=
  {| FT_Load_Glyph := sample_load;
     FT_Glyph_Get_CBox := fun _ =>
       {| xMin := 0; yMin := 0; xMax := 2 ^ 22; yMax := 2 ^ 22 |} |}.

(** A rasterizer whose glyphs have a control box of 6 x 3 pixels, larger
    than their bitmap of 2 x 2. *)
Definition roomy_rasterizer : Rasterizer :=
  {| FT_Load_Glyph := sample_load;
     FT_Glyph_Get_CBox := fun _ =>
       {| xMin := 0; yMin := -64; xMax := 384; yMax := 128 |} |}.

(** * Properties *)

(** ** Machine integers and bytes *)

Lemma wrap_signed_small bits z :
  0 < bits -> - 2 ^ (bits - 1) <= z < 2 ^ (bits - 1) -> wrap_signed bits z = z.
Proof.
  intros Hb Hz. unfold wrap_signed.
  assert (2 ^ bits = 2 * 2 ^ (bits - 1)) as ->.
  { rewrite <- Z.pow_succ_r by lia. f_equal. lia. }
  rewrite Z.mod_small; lia.
Qed.

Lemma wrap_signed_range bits z :
  0 < bits -> - 2 ^ (bits - 1) <= wrap_signed bits z < 2 ^ (bits - 1).
Proof.
  intros Hb. unfold wrap_signed.
  assert (2 ^ bits = 2 * 2 ^ (bits - 1)) as E.
  { rewrite <- Z.pow_succ_r by lia. f_equal. lia. }
  assert (0 < 2 ^ (bits - 1)) by (apply Z.pow_pos_nonneg; lia).
  pose proof (Z.mod_pos_bound (z + 2 ^ (bits - 1)) (2 ^ bits)). lia.
Qed.

Lemma wrap_signed_add_l bits a b :
  0 < bits -> wrap_signed bits (wrap_signed bits a + b) = wrap_signed bits (a + b).
Proof.
  intros Hb. unfold wrap_signed. f_equal.
  replace ((a + 2 ^ (bits - 1)) mod 2 ^ bits - 2 ^ (bits - 1) + b
           + 2 ^ (bits - 1))
    with ((a + 2 ^ (bits - 1)) mod 2 ^ bits + b) by lia.
  replace (a + b + 2 ^ (bits - 1)) with (a + 2 ^ (bits - 1) + b) by lia.
  apply Zplus_mod_idemp_l.
Qed.

Lemma to_int_small z : int_range z -> to_int z = z.
Proof. intros [? ?]. apply wrap_signed_small; unfold INT_MIN, INT_MAX in *; lia. Qed.

Lemma to_int_range z : int_range (to_int z).
Proof.
  pose proof (wrap_signed_range 32 z). unfold int_range, INT_MIN, INT_MAX, to_int.
  simpl in *. lia.
Qed.

Lemma to_long_small z : - 2 ^ 63 <= z < 2 ^ 63 -> to_long z = z.
Proof. intros ?. apply wrap_signed_small; simpl; lia. Qed.

Lemma to_long_add_l a b : to_long (to_long a + b) = to_long (a + b).
Proof. apply wrap_signed_add_l. lia. Qed.

Lemma to_int_to_uint z : to_int (to_uint z) = to_int z.
Proof.
  unfold to_int, to_uint, wrap_signed. f_equal.
  change (2 ^ (32 - 1)) with (2 ^ 31). rewrite Zplus_mod_idemp_l. done.
Qed.

Lemma lor_wrap a b : byte.wrap (Z.lor a b) = Z.lor (byte.wrap a) (byte.wrap b).
Proof.
  unfold byte.wrap. rewrite <- !Z.land_ones by lia. apply Z.land_lor_distr_l.
Qed.

Lemma unsigned_uchar_or a b :
  byte.unsigned (uchar_or a b) = Z.lor (byte.unsigned a) (byte.unsigned b).
Proof.
  unfold uchar_or. rewrite byte.unsigned_of_Z, lor_wrap.
  by rewrite !byte.wrap_unsigned.
Qed.

Lemma lor_ge a b : 0 <= a -> 0 <= b -> a <= Z.lor a b.
Proof.
  intros Ha Hb. apply Z.ldiff_le; [by apply Z.lor_nonneg|].
  apply Z.bits_inj'. intros n Hn.
  rewrite Z.ldiff_spec, Z.lor_spec, Z.bits_0.
  by destruct (Z.testbit a n), (Z.testbit b n).
Qed.

Lemma uchar_or_ge a b : byte.unsigned a <= byte.unsigned (uchar_or a b).
Proof.
  rewrite unsigned_uchar_or.
  apply lor_ge; apply byte.unsigned_range.
Qed.

Lemma uchar_or_idem a b : uchar_or (uchar_or a b) b = uchar_or a b.
Proof.
  apply byte.unsigned_inj. rewrite !unsigned_uchar_or.
  by rewrite <- Z.lor_assoc, Z.lor_diag.
Qed.

(** ** The loops of DrawGlyph *)

(** Invariant rule for [for_loop]: [P k] holds after [k] iterations. *)
Lemma for_loop_invariant {St : Type} (P : Z -> St -> Prop) n i p body
    (s : St) :
  int_range i -> i + Z.of_nat n <= INT_MAX ->
  0 <= p -> p + Z.of_nat n <= INT_MAX ->
  P 0 s ->
  (forall k s0, 0 <= k < Z.of_nat n -> P k s0 ->
     exists s1, body (i + k) (p + k) s0 = Some s1 /\ P (k + 1) s1) ->
  exists s', for_loop n i p body s = Some s' /\ P (Z.of_nat n) s'.
Proof.
  revert P i p s. induction n as [|n IH]; intros P i p s Hi Hin Hp Hpn H0 Hstep.
  - exists s. split; [done|]. exact H0.
  - destruct (Hstep 0 s) as (s1 & Hb & H1); [lia|done|].
    rewrite !Z.add_0_r in Hb. simpl. rewrite Hb. simpl.
    assert (int_range (i + 1)) by (unfold int_range, INT_MIN, INT_MAX in *; lia).
    assert (int_range (p + 1)) by (unfold int_range, INT_MIN, INT_MAX in *; lia).
    rewrite !to_int_small by done.
    destruct (IH (fun k => P (k + 1)) (i + 1) (p + 1) s1) as (s' & Hl & HP);
      try lia; try done.
    + intros k s0 Hk HPk.
      destruct (Hstep (k + 1) s0) as (s2 & Hb2 & HP2); [lia|done|].
      exists s2. split; [|done].
      rewrite <- Hb2. f_equal; lia.
    + exists s'. split; [done|].
      replace (Z.of_nat (S n)) with (Z.of_nat n + 1) by lia. done.
Qed.

(** The bound of a loop of [DrawGlyph] is the end of the bitmap, or, when
    the sum leaves [int], a value below the start. *)
Lemma loop_bound x w :
  int_range x -> 0 <= w <= INT_MAX ->
  to_int (to_uint (x + w)) = x + w \/ to_int (to_uint (x + w)) < x.
Proof.
  intros Hx Hw. rewrite to_int_to_uint.
  destruct (Z.le_gt_cases (x + w) INT_MAX).
  - left. apply to_int_small. unfold int_range, INT_MIN, INT_MAX in *. lia.
  - right. unfold to_int, wrap_signed.
    change (2 ^ (32 - 1)) with 2147483648. change (2 ^ 32) with 4294967296.
    unfold int_range, INT_MIN, INT_MAX in *.
    rewrite <- (Z.mod_unique_pos (x + w + 2147483648) 4294967296 1
                  (x + w - 2147483648)); lia.
Qed.

Ltac bool_cases :=
  repeat match goal with
  | |- context [Z.eqb ?a ?b] => destruct (Z.eqb_spec a b)
  | |- context [Z.leb ?a ?b] => destruct (Z.leb_spec a b)
  | |- context [Z.ltb ?a ?b] => destruct (Z.ltb_spec a b)
  end; simpl; try done; try lia.

Lemma pixel_index_inj width i j i' j' :
  0 <= i < width -> 0 <= j -> 0 <= i' < width -> 0 <= j' ->
  pixel_index width i j = pixel_index width i' j' -> i = i' /\ j = j'.
Proof.
  unfold pixel_index. intros Hi Hj Hi' Hj' E.
  apply Z2Nat.inj in E; [|nia|nia].
  assert (j = j') by nia. subst. lia.
Qed.

Lemma pixel_index_lt width height i j :
  0 <= i < width -> 0 <= j < height -> 0 <= j * width + i < width * height.
Proof. nia. Qed.

Section DrawGlyph_loops.
Variables (width height : Z) (glyphBitmap : FT_Bitmap) (x y : Z).
Hypothesis Hwidth : 0 <= width.
Hypothesis Hheight : 0 <= height.
Hypothesis Hint : width * height <= INT_MAX.
Hypothesis Hbitmap : bitmap_wf glyphBitmap.
Hypothesis Hx : int_range x.
Hypothesis Hy : int_range y.

(** One execution of the loop body: the pixel [(i, j)] is or-ed with the
    bitmap's pixel [(p, q)] when it lies on the canvas, and nothing else
    changes. *)
Lemma DrawGlyph_body_spec image i p j q :
  Z.of_nat (length image) = width * height ->
  0 <= p < bitmap_width glyphBitmap -> 0 <= q < bitmap_rows glyphBitmap ->
  exists image',
    DrawGlyph_body width height glyphBitmap i p j q image = Some image' /\
    length image' = length image /\
    forall i0 j0, 0 <= i0 < width -> 0 <= j0 < height ->
      image' !! pixel_index width i0 j0 =
        if (i0 =? i) && (j0 =? j)
        then (fun old => uchar_or old (source_pixel glyphBitmap p q))
               <$> image !! pixel_index width i0 j0
        else image !! pixel_index width i0 j0.
Proof using All.
  intros Hlen Hp Hq. unfold DrawGlyph_body.
  rewrite !Z.geb_leb.
  destruct (Z.ltb_spec i 0); simpl.
  { exists image. split; [done|]. split; [done|]. intros i0 j0 ? ?.
    destruct (Z.eqb_spec i0 i); [lia|done]. }
  destruct (Z.ltb_spec j 0); simpl.
  { exists image. split; [done|]. split; [done|]. intros i0 j0 ? ?.
    destruct (Z.eqb_spec i0 i), (Z.eqb_spec j0 j); simpl; try done; lia. }
  destruct (Z.leb_spec width i); simpl.
  { exists image. split; [done|]. split; [done|]. intros i0 j0 ? ?.
    destruct (Z.eqb_spec i0 i); [lia|done]. }
  destruct (Z.leb_spec height j); simpl.
  { exists image. split; [done|]. split; [done|]. intros i0 j0 ? ?.
    destruct (Z.eqb_spec i0 i), (Z.eqb_spec j0 j); simpl; try done; lia. }
  destruct Hbitmap as (Hbw & Hbr & Hbwr & Hblen).
  assert (0 <= q * bitmap_width glyphBitmap + p
          < bitmap_width glyphBitmap * bitmap_rows glyphBitmap) as Hsrc by nia.
  assert (exists v, bitmap_pixel glyphBitmap p q = Some v) as [v Hv].
  { unfold bitmap_pixel, to_uint. apply lookup_lt_is_Some_2.
    rewrite Z.mod_small by (unfold INT_MAX in *; lia). lia. }
  assert (source_pixel glyphBitmap p q = v) as Hsv
    by (unfold source_pixel; by rewrite Hv).
  rewrite Hv. simpl.
  pose proof (pixel_index_lt width height i j) as Hdst.
  unfold image_or_assign.
  rewrite to_int_small by (unfold int_range, INT_MIN, INT_MAX in *; lia).
  destruct (Z.leb_spec 0 (j * width + i)); [|lia].
  destruct (Z.ltb_spec (j * width + i) (Z.of_nat (length image))); [|lia].
  simpl.
  assert (exists old, image !! Z.to_nat (j * width + i) = Some old) as [old Ho].
  { apply lookup_lt_is_Some_2. lia. }
  rewrite Ho. simpl. eexists. split; [done|].
  split; [by rewrite length_insert|].
  intros i0 j0 Hi0 Hj0.
  destruct (Z.eqb_spec i0 i) as [->|Hne]; simpl.
  - destruct (Z.eqb_spec j0 j) as [->|Hne].
    + unfold pixel_index. rewrite Ho. simpl. rewrite Hsv.
      apply list_lookup_insert_eq. lia.
    + apply list_lookup_insert_ne. intros E.
      apply (pixel_index_inj width i j i j0) in E; lia.
  - apply list_lookup_insert_ne. intros E.
    apply (pixel_index_inj width i j i0 j0) in E; lia.
Qed.


(** The inner loop, for the column [i] of the canvas and the column [p] of
    the bitmap. *)
Lemma DrawGlyph_column_spec image i p :
  Z.of_nat (length image) = width * height ->
  0 <= p < bitmap_width glyphBitmap ->
  exists image',
    for_loop (Z.to_nat (glyph_yMax glyphBitmap y - y)) y 0
      (fun j q image => DrawGlyph_body width height glyphBitmap i p j q image)
      image = Some image' /\
    length image' = length image /\
    forall i0 j0, 0 <= i0 < width -> 0 <= j0 < height ->
      image' !! pixel_index width i0 j0 =
        if (i0 =? i) && (y <=? j0) && (j0 <? glyph_yMax glyphBitmap y)
        then (fun old => uchar_or old (source_pixel glyphBitmap p (j0 - y)))
               <$> image !! pixel_index width i0 j0
        else image !! pixel_index width i0 j0.
Proof using All.
  intros Hlen Hp.
  pose proof Hbitmap as (Hbw & Hbr & _).
  pose proof (loop_bound y (bitmap_rows glyphBitmap) Hy Hbr) as Hbound.
  fold (glyph_yMax glyphBitmap y) in Hbound.
  pose proof (to_int_range (to_uint (y + bitmap_rows glyphBitmap))) as Hr.
  fold (glyph_yMax glyphBitmap y) in Hr.
  set (yMax := glyph_yMax glyphBitmap y) in *.
  set (n := Z.to_nat (yMax - y)).
  destruct (for_loop_invariant
    (fun k image' =>
       length image' = length image /\
       forall i0 j0, 0 <= i0 < width -> 0 <= j0 < height ->
         image' !! pixel_index width i0 j0 =
           if (i0 =? i) && (y <=? j0) && (j0 <? y + k)
           then (fun old => uchar_or old (source_pixel glyphBitmap p (j0 - y)))
                  <$> image !! pixel_index width i0 j0
           else image !! pixel_index width i0 j0)
    n y 0
    (fun j q image => DrawGlyph_body width height glyphBitmap i p j q image)
    image) as (image' & Hloop & Hlen' & Hpix).
  - done.
  - unfold int_range, INT_MIN, INT_MAX in *. lia.
  - lia.
  - unfold int_range, INT_MIN, INT_MAX in *. lia.
  - split; [done|]. intros i0 j0 ? ?. bool_cases.
  - intros k s0 Hk (Hl0 & Hp0).
    destruct (DrawGlyph_body_spec s0 i p (y + k) (0 + k))
      as (s1 & Hb & Hl1 & Hp1); [lia|done|lia|].
    exists s1. split; [done|]. split; [congruence|].
    intros i0 j0 Hi0 Hj0. rewrite (Hp1 i0 j0 Hi0 Hj0), (Hp0 i0 j0 Hi0 Hj0).
    bool_cases. by replace (0 + k) with (j0 - y) by lia.
  - exists image'. split; [done|]. split; [done|].
    intros i0 j0 Hi0 Hj0. rewrite (Hpix i0 j0 Hi0 Hj0).
    bool_cases.
Qed.

(** The two loops together: every pixel of the canvas that the loops visit
    is or-ed with its pixel of the bitmap, and no other pixel changes. *)
Lemma DrawGlyph_spec image :
  Z.of_nat (length image) = width * height ->
  exists image',
    DrawGlyph image width height glyphBitmap x y = Some image' /\
    length image' = length image /\
    forall i0 j0, 0 <= i0 < width -> 0 <= j0 < height ->
      image' !! pixel_index width i0 j0 =
        if visited glyphBitmap x y i0 j0
        then (fun old =>
                uchar_or old (source_pixel glyphBitmap (i0 - x) (j0 - y)))
               <$> image !! pixel_index width i0 j0
        else image !! pixel_index width i0 j0.
Proof using All.
  intros Hlen. unfold DrawGlyph, visited.
  pose proof Hbitmap as (Hbw & Hbr & _).
  pose proof (loop_bound x (bitmap_width glyphBitmap) Hx Hbw) as Hbound.
  pose proof (to_int_range (to_uint (x + bitmap_width glyphBitmap))) as Hr.
  fold (glyph_xMax glyphBitmap x) in Hbound, Hr |- *.
  fold (glyph_yMax glyphBitmap y).
  set (xMax := glyph_xMax glyphBitmap x) in *.
  set (yMax := glyph_yMax glyphBitmap y) in *.
  set (n := Z.to_nat (xMax - x)).
  destruct (for_loop_invariant
    (fun k image' =>
       length image' = length image /\
       forall i0 j0, 0 <= i0 < width -> 0 <= j0 < height ->
         image' !! pixel_index width i0 j0 =
           if (x <=? i0) && (i0 <? x + k) && (y <=? j0) && (j0 <? yMax)
           then (fun old =>
                   uchar_or old (source_pixel glyphBitmap (i0 - x) (j0 - y)))
                  <$> image !! pixel_index width i0 j0
           else image !! pixel_index width i0 j0)
    n x 0
    (fun i p image =>
       for_loop (Z.to_nat (yMax - y)) y 0
         (fun j q image => DrawGlyph_body width height glyphBitmap i p j q image)
         image)
    image) as (image' & Hloop & Hlen' & Hpix).
  - done.
  - unfold int_range, INT_MIN, INT_MAX in *. lia.
  - lia.
  - unfold int_range, INT_MIN, INT_MAX in *. lia.
  - split; [done|]. intros i0 j0 ? ?. bool_cases.
  - intros k s0 Hk (Hl0 & Hp0).
    destruct (DrawGlyph_column_spec s0 (x + k) (0 + k))
      as (s1 & Hb & Hl1 & Hp1); [lia|lia|].
    exists s1. split; [done|]. split; [congruence|].
    intros i0 j0 Hi0 Hj0. rewrite (Hp1 i0 j0 Hi0 Hj0), (Hp0 i0 j0 Hi0 Hj0).
    fold yMax. bool_cases. by replace (0 + k) with (i0 - x) by lia.
  - exists image'. split; [done|]. split; [done|].
    intros i0 j0 Hi0 Hj0. rewrite (Hpix i0 j0 Hi0 Hj0).
    bool_cases.
Qed.
End DrawGlyph_loops.

(** ** Consequences for one call of DrawGlyph *)

Lemma pixel_index_decompose width height (n : nat) :
  0 <= width -> Z.of_nat n < width * height ->
  exists i j, 0 <= i < width /\ 0 <= j < height /\ pixel_index width i j = n.
Proof.
  intros Hw Hn.
  assert (0 < width) by (destruct (Z.eq_dec width 0) as [->|]; lia).
  exists (Z.of_nat n mod width), (Z.of_nat n / width).
  pose proof (Z.mod_pos_bound (Z.of_nat n) width).
  pose proof (Z.div_mod (Z.of_nat n) width).
  assert (0 <= Z.of_nat n / width) by (apply Z.div_pos; lia).
  split; [lia|]. split.
  - split; [done|]. apply Z.div_lt_upper_bound; lia.
  - unfold pixel_index.
    replace (Z.of_nat n / width * width + Z.of_nat n mod width)
      with (Z.of_nat n) by lia.
    apply Nat2Z.id.
Qed.

(** The pixels the loops visit lie in the destination rectangle. *)
Lemma visited_in_rectangle glyphBitmap x y i j :
  bitmap_wf glyphBitmap -> int_range x -> int_range y ->
  visited glyphBitmap x y i j = true -> in_rectangle glyphBitmap x y i j.
Proof.
  intros (Hbw & Hbr & _) Hx Hy. unfold visited, in_rectangle.
  pose proof (loop_bound x _ Hx Hbw) as Hbx.
  pose proof (loop_bound y _ Hy Hbr) as Hby.
  fold (glyph_xMax glyphBitmap x) in Hbx. fold (glyph_yMax glyphBitmap y) in Hby.
  bool_cases.
Qed.

(** When the far corner of the rectangle is representable, the loops visit
    the whole rectangle. *)
Lemma in_rectangle_visited glyphBitmap x y i j :
  int_range (x + bitmap_width glyphBitmap) ->
  int_range (y + bitmap_rows glyphBitmap) ->
  in_rectangle glyphBitmap x y i j -> visited glyphBitmap x y i j = true.
Proof.
  intros Hx Hy. unfold visited, in_rectangle, glyph_xMax, glyph_yMax.
  rewrite !to_int_to_uint, !to_int_small by done.
  bool_cases.
Qed.

Lemma DrawGlyph_total image width height glyphBitmap x y :
  canvas_wf image width height -> bitmap_wf glyphBitmap ->
  int_range x -> int_range y ->
  exists image',
    DrawGlyph image width height glyphBitmap x y = Some image' /\
    canvas_wf image' width height /\
    forall i j, 0 <= i < width -> 0 <= j < height ->
      image' !! pixel_index width i j =
        if visited glyphBitmap x y i j
        then (fun old =>
                uchar_or old (source_pixel glyphBitmap (i - x) (j - y)))
               <$> image !! pixel_index width i j
        else image !! pixel_index width i j.
Proof.
  intros (Hw & Hh & Hwh & Hlen) Hb Hx Hy.
  destruct (DrawGlyph_spec width height glyphBitmap x y Hw Hh Hwh Hb Hx Hy
              image Hlen) as (image' & HD & Hl & Hpix).
  exists image'. split; [done|]. split; [|done].
  unfold canvas_wf. rewrite Hl. done.
Qed.

Lemma canvas_lookup image width height i j :
  canvas_wf image width height -> 0 <= i < width -> 0 <= j < height ->
  exists a, image !! pixel_index width i j = Some a.
Proof.
  intros (Hw & Hh & Hwh & Hlen) Hi Hj.
  apply lookup_lt_is_Some_2. unfold pixel_index.
  pose proof (pixel_index_lt width height i j Hi Hj). lia.
Qed.

(** Two canvases of the same dimensions with the same pixels are equal. *)
Lemma canvas_eq image image' width height :
  canvas_wf image width height -> canvas_wf image' width height ->
  (forall i j, 0 <= i < width -> 0 <= j < height ->
     image' !! pixel_index width i j = image !! pixel_index width i j) ->
  image' = image.
Proof.
  intros (Hw & Hh & Hwh & Hlen) (_ & _ & _ & Hlen') Hpix.
  apply list_eq. intros n.
  destruct (Z.lt_ge_cases (Z.of_nat n) (width * height)) as [Hn|Hn].
  - destruct (pixel_index_decompose width height n Hw Hn)
      as (i & j & Hi & Hj & <-).
    by apply Hpix.
  - rewrite !lookup_ge_None_2; [done|lia|lia].
Qed.

(** C8: or-compositing is idempotent.  For a canvas of [width * height]
    bytes, a well-formed glyph bitmap and an [FT_Int] offset, [DrawGlyph]
    returns, and a second call with the same bitmap at the same offset
    returns the canvas of the first call unchanged. *)
Theorem DrawGlyph_idempotent image width height glyphBitmap x y :
  canvas_wf image width height -> bitmap_wf glyphBitmap ->
  int_range x -> int_range y ->
  exists image',
    DrawGlyph image width height glyphBitmap x y = Some image' /\
    DrawGlyph image' width height glyphBitmap x y = Some image'.
Proof.
  intros Hc Hb Hx Hy.
  destruct (DrawGlyph_total image width height glyphBitmap x y Hc Hb Hx Hy)
    as (image' & HD & Hc' & Hpix).
  destruct (DrawGlyph_total image' width height glyphBitmap x y Hc' Hb Hx Hy)
    as (image'' & HD' & Hc'' & Hpix').
  exists image'. split; [done|]. rewrite HD'. f_equal.
  apply (canvas_eq _ _ width height); [done|done|].
  intros i j Hi Hj. rewrite (Hpix' i j Hi Hj), (Hpix i j Hi Hj).
  destruct (visited glyphBitmap x y i j); [|done].
  destruct (image !! pixel_index width i j) as [a|]; [|done].
  simpl. by rewrite uchar_or_idem.
Qed.

Lemma DrawGlyph_idempotent_witness :
  exists image',
    DrawGlyph sample_image 4 3 sample_bitmap 3 (-1) = Some image' /\
    DrawGlyph image' 4 3 sample_bitmap 3 (-1) = Some image'.
Proof.
  apply DrawGlyph_idempotent;
    unfold canvas_wf, bitmap_wf, int_range, INT_MIN, INT_MAX; simpl; lia.
Defined.

Lemma DrawGlyph_image_le image width height glyphBitmap x y :
  canvas_wf image width height -> bitmap_wf glyphBitmap ->
  int_range x -> int_range y ->
  exists image',
    DrawGlyph image width height glyphBitmap x y = Some image' /\
    canvas_wf image' width height /\ image_le image image'.
Proof.
  intros Hc Hb Hx Hy.
  destruct (DrawGlyph_total image width height glyphBitmap x y Hc Hb Hx Hy)
    as (image' & HD & Hc' & Hpix).
  exists image'. split; [done|]. split; [done|].
  pose proof Hc as (Hw & Hh & Hwh & Hlen).
  pose proof Hc' as (_ & _ & _ & Hlen').
  split; [lia|]. intros n a b Ha Hb'.
  assert (Z.of_nat n < width * height) as Hn
    by (apply lookup_lt_Some in Ha; lia).
  destruct (pixel_index_decompose width height n Hw Hn)
    as (i & j & Hi & Hj & <-).
  rewrite (Hpix i j Hi Hj), Ha in Hb'.
  destruct (visited glyphBitmap x y i j); simpl in Hb'; simplify_eq.
  - apply uchar_or_ge.
  - lia.
Qed.

(** ** The render pass *)

#[local] Instance image_le_refl : Reflexive image_le.
Proof. intros image. split; [done|]. intros n a b Ha Hb. simplify_eq. lia. Qed.

#[local] Instance image_le_trans : Transitive image_le.
Proof.
  intros a b c [Hl1 H1] [Hl2 H2]. split; [congruence|].
  intros n u w Hu Hw.
  destruct (lookup_lt_is_Some_2 b n) as [v Hv].
  { apply lookup_lt_Some in Hu. lia. }
  specialize (H1 n u v Hu Hv). specialize (H2 n v w Hv Hw). lia.
Qed.

Section Render_pass.
Context {R : Rasterizer}.
Variables (width height : Z).

(** A preorder on canvases kept by every [DrawGlyph] call of the loop is
    kept by the loop, which then never leaves the defined behaviour. *)
Lemma render_fold_preorder (Rel : relation (list byte))
    `{!Reflexive Rel, !Transitive Rel} glyphCodepoints :
  forall st image,
    r_image st = Some image -> canvas_wf image width height ->
    (forall img slot,
       slot ∈ render_slots_from width height st glyphCodepoints -> canvas_wf img width height ->
       exists img',
         DrawGlyph img width height (bitmap slot) (bitmap_left slot)
           (to_int (height - bitmap_top slot)) = Some img' /\
         canvas_wf img' width height /\ Rel img img') ->
    exists image',
      r_image (fold_left (render_step width height) glyphCodepoints st)
        = Some image' /\
      canvas_wf image' width height /\ Rel image image'.
Proof.
  induction glyphCodepoints as [|c l IH]; intros st image Hst Hc Hstep.
  - exists image. simpl. done.
  - simpl.
    destruct (Hstep image (FT_Load_Glyph (r_translation st) c))
      as (img1 & HD & Hc1 & HR1); [left|done|].
    destruct (IH (render_step width height st c) img1)
      as (image' & Hf & Hc' & HR').
    + unfold render_step. simpl. rewrite Hst. simpl. done.
    + done.
    + intros img slot Hin. apply Hstep. by right.
    + exists image'. split; [done|]. split; [done|]. by transitivity img1.
Qed.
End Render_pass.

Lemma sample_rasterizer_wf : rasterizer_wf sample_rasterizer.
Proof.
  intros t c. split.
  - unfold bitmap_wf, INT_MAX. simpl. lia.
  - apply to_int_range.
Qed.

Lemma image_le_pixel image image' width height i j :
  canvas_wf image width height -> image_le image image' ->
  0 <= i < width -> 0 <= j < height ->
  exists a b,
    image !! pixel_index width i j = Some a /\
    image' !! pixel_index width i j = Some b /\
    byte.unsigned a <= byte.unsigned b.
Proof.
  intros Hc [Hl Hle] Hi Hj.
  destruct (canvas_lookup image width height i j Hc Hi Hj) as [a Ha].
  destruct (lookup_lt_is_Some_2 image' (pixel_index width i j)) as [b Hb].
  { apply lookup_lt_Some in Ha. lia. }
  exists a, b. eauto.
Qed.

Lemma render_pass_image_le {R : Rasterizer} width height glyphCodepoints :
  rasterizer_wf R ->
  forall st image,
    r_image st = Some image -> canvas_wf image width height ->
    exists image',
      r_image (fold_left (render_step width height) glyphCodepoints st)
        = Some image' /\
      canvas_wf image' width height /\ image_le image image'.
Proof.
  intros HR st image Hst Hc.
  apply (render_fold_preorder width height image_le glyphCodepoints st image);
    [done|done|].
  intros img slot Hin Hci.
  apply list_elem_of_lookup in Hin as [n Hn].
  unfold render_slots_from in Hn.
  apply lookup_zip_with_Some in Hn as (t & c & -> & _ & _).
  destruct (HR t c) as [Hb Hl].
  apply DrawGlyph_image_le; [done|done|done|apply to_int_range].
Qed.

(** C10: compositing is pointwise non-decreasing.  After a [DrawGlyph] call
    on a canvas of [width * height] bytes every pixel of the canvas holds at
    least the coverage it held before, and so it does after the whole render
    pass of a rasterizer with well-formed bitmaps. *)
Theorem compositing_monotone image width height glyphBitmap x y :
  canvas_wf image width height -> bitmap_wf glyphBitmap ->
  int_range x -> int_range y ->
  (exists image',
     DrawGlyph image width height glyphBitmap x y = Some image' /\
     forall i j, 0 <= i < width -> 0 <= j < height ->
       exists a b,
         image !! pixel_index width i j = Some a /\
         image' !! pixel_index width i j = Some b /\
         byte.unsigned a <= byte.unsigned b) /\
  (forall (R : Rasterizer) aboveOriginShift glyphCodepoints,
     rasterizer_wf R ->
     exists image',
       r_image (render_pass width height aboveOriginShift image
                  glyphCodepoints) = Some image' /\
       forall i j, 0 <= i < width -> 0 <= j < height ->
         exists a b,
           image !! pixel_index width i j = Some a /\
           image' !! pixel_index width i j = Some b /\
           byte.unsigned a <= byte.unsigned b).
Proof.
  intros Hc Hb Hx Hy. split.
  - destruct (DrawGlyph_image_le image width height glyphBitmap x y)
      as (image' & HD & Hc' & Hle); try done.
    exists image'. split; [done|]. intros i j. by apply image_le_pixel.
  - intros R aboveOriginShift glyphCodepoints HR.
    destruct (render_pass_image_le width height glyphCodepoints HR
                (render_init aboveOriginShift image) image)
      as (image' & Hf & Hc' & Hle); try done.
    exists image'. split; [done|]. intros i j. by apply image_le_pixel.
Qed.

Lemma compositing_monotone_witness :
  (exists image',
     DrawGlyph sample_image 4 3 sample_bitmap 3 (-1) = Some image' /\
     forall i j, 0 <= i < 4 -> 0 <= j < 3 ->
       exists a b,
         sample_image !! pixel_index 4 i j = Some a /\
         image' !! pixel_index 4 i j = Some b /\
         byte.unsigned a <= byte.unsigned b) /\
  (exists image',
     r_image (render_pass (R := sample_rasterizer) 4 3 64 sample_image
                [7; 7]) = Some image' /\
     forall i j, 0 <= i < 4 -> 0 <= j < 3 ->
       exists a b,
         sample_image !! pixel_index 4 i j = Some a /\
         image' !! pixel_index 4 i j = Some b /\
         byte.unsigned a <= byte.unsigned b).
Proof.
  destruct (compositing_monotone sample_image 4 3 sample_bitmap 3 (-1))
    as [Hcall Hpass];
    try (unfold canvas_wf, bitmap_wf, int_range, INT_MIN, INT_MAX; simpl; lia).
  split; [exact Hcall|].
  exact (Hpass sample_rasterizer 64 [7; 7] sample_rasterizer_wf).
Defined.

#[local] Instance same_on_refl width height keep :
  Reflexive (same_on width height keep).
Proof. by intros image i j. Qed.

#[local] Instance same_on_trans width height keep :
  Transitive (same_on width height keep).
Proof.
  intros a b c H1 H2 i j Hi Hj Hk.
  rewrite (H2 i j Hi Hj Hk). by apply H1.
Qed.

(** A [DrawGlyph] call leaves the pixels outside its destination rectangle
    as they were. *)
Lemma DrawGlyph_frame image width height glyphBitmap x y :
  canvas_wf image width height -> bitmap_wf glyphBitmap ->
  int_range x -> int_range y ->
  exists image',
    DrawGlyph image width height glyphBitmap x y = Some image' /\
    canvas_wf image' width height /\
    same_on width height (fun i j => ~ in_rectangle glyphBitmap x y i j)
      image image'.
Proof.
  intros Hc Hb Hx Hy.
  destruct (DrawGlyph_total image width height glyphBitmap x y Hc Hb Hx Hy)
    as (image' & HD & Hc' & Hpix).
  exists image'. split; [done|]. split; [done|].
  intros i j Hi Hj Hout. rewrite (Hpix i j Hi Hj).
  destruct (visited glyphBitmap x y i j) eqn:Hv; [|done].
  destruct Hout. by apply visited_in_rectangle.
Qed.

Lemma render_pass_frame {R : Rasterizer} width height glyphCodepoints :
  rasterizer_wf R ->
  forall st image,
    r_image st = Some image -> canvas_wf image width height ->
    exists image',
      r_image (fold_left (render_step width height) glyphCodepoints st)
        = Some image' /\
      canvas_wf image' width height /\
      same_on width height
        (uncovered height (render_slots_from width height st glyphCodepoints))
        image image'.
Proof.
  intros HR st image Hst Hc.
  apply (render_fold_preorder width height _ glyphCodepoints st image);
    [done|done|].
  intros img slot Hin Hci.
  pose proof Hin as Hin'.
  apply list_elem_of_lookup in Hin' as [n Hn].
  unfold render_slots_from in Hn.
  apply lookup_zip_with_Some in Hn as (t & c & Hs & _ & _).
  destruct (HR t c) as [Hb Hl]. rewrite <- Hs in Hb, Hl.
  destruct (DrawGlyph_frame img width height (bitmap slot) (bitmap_left slot)
              (to_int (height - bitmap_top slot)))
    as (img' & HD & Hc' & Hsame); [done|done|done|apply to_int_range|].
  exists img'. split; [done|]. split; [done|].
  intros i j Hi Hj Hun. apply Hsame; [done|done|]. by apply Hun.
Qed.

Lemma new_uchar_array_wf width height :
  0 <= width -> 0 <= height -> width * height <= INT_MAX ->
  exists image,
    new_uchar_array (to_int (width * height)) = Some image /\
    image = replicate (Z.to_nat (width * height)) Byte.x00 /\
    canvas_wf image width height.
Proof.
  intros Hw Hh Hwh.
  assert (0 <= width * height) by nia.
  rewrite to_int_small by (unfold int_range, INT_MIN, INT_MAX in *; lia).
  unfold new_uchar_array. destruct (Z.ltb_spec (width * height) 0); [lia|].
  eexists. split; [done|]. split; [done|].
  unfold canvas_wf. rewrite length_replicate. lia.
Qed.

(** C3, as the code has it: the canvas index [j * width + i] and the size
    [width * height] are computed in [int].  On a canvas of
    [width * height] bytes with [width * height <= INT_MAX], for a
    well-formed bitmap and any [FT_Int] offset, negative or far off the
    canvas, [DrawGlyph] stays inside the canvas array (it returns a canvas
    of the same size) and leaves every pixel outside the destination
    rectangle as it was; and when the canvas dimensions [W] and [H] that
    [main] computes are not negative and [W * H <= INT_MAX], [main] prints a
    canvas whose every pixel outside all destination rectangles of the
    render pass is zero. *)
Theorem clipping_safety image width height glyphBitmap x y :
  canvas_wf image width height -> bitmap_wf glyphBitmap ->
  int_range x -> int_range y ->
  (exists image',
     DrawGlyph image width height glyphBitmap x y = Some image' /\
     length image' = length image /\
     forall i j, 0 <= i < width -> 0 <= j < height ->
       ~ in_rectangle glyphBitmap x y i j ->
       image' !! pixel_index width i j = image !! pixel_index width i j) /\
  (forall (R : Rasterizer) glyphCodepoints,
     rasterizer_wf R ->
     let m := metrics_pass glyphCodepoints in
     let W := canvas_width (m_bbox m) in
     let H := canvas_height (m_bbox m) in
     0 <= W -> 0 <= H -> W * H <= INT_MAX ->
     exists image',
       glyph_stage glyphCodepoints = Printed W H image' /\
       Z.of_nat (length image') = W * H /\
       forall i j, 0 <= i < W -> 0 <= j < H ->
         uncovered H
           (render_slots W H (m_aboveOriginShift m)
              (replicate (Z.to_nat (W * H)) Byte.x00) glyphCodepoints) i j ->
         image' !! pixel_index W i j = Some Byte.x00).
Proof.
  intros Hc Hb Hx Hy. split.
  - destruct (DrawGlyph_frame image width height glyphBitmap x y)
      as (image' & HD & Hc' & Hsame); try done.
    exists image'. split; [done|]. split; [|done].
    destruct Hc as (_ & _ & _ & Hl), Hc' as (_ & _ & _ & Hl'). lia.
  - intros R glyphCodepoints HR m W H HW HH HWH.
    destruct (new_uchar_array_wf W H HW HH HWH) as (zeros & Hnew & Hz & Hcz).
    destruct (render_pass_frame W H glyphCodepoints HR
                (render_init (m_aboveOriginShift m) zeros) zeros)
      as (image' & Hf & Hc' & Hsame); [done|done|].
    exists image'. split.
    { unfold glyph_stage. fold m W H. rewrite Hnew.
      unfold render_pass. by rewrite Hf. }
    split; [by destruct Hc' as (_ & _ & _ & Hl)|].
    intros i j Hi Hj Hun. unfold render_slots in Hun. rewrite <- Hz in Hun.
    rewrite (Hsame i j Hi Hj Hun), Hz.
    apply lookup_replicate_2. unfold pixel_index.
    pose proof (pixel_index_lt W H i j Hi Hj). lia.
Qed.

Lemma roomy_rasterizer_wf : rasterizer_wf roomy_rasterizer.
Proof.
  intros t c. split.
  - unfold bitmap_wf, INT_MAX. simpl. lia.
  - apply to_int_range.
Qed.

Lemma clipping_safety_witness :
  (exists image',
     DrawGlyph sample_image 4 3 sample_bitmap (-1) 2 = Some image' /\
     length image' = length sample_image /\
     forall i j, 0 <= i < 4 -> 0 <= j < 3 ->
       ~ in_rectangle sample_bitmap (-1) 2 i j ->
       image' !! pixel_index 4 i j = sample_image !! pixel_index 4 i j) /\
  (exists image',
     glyph_stage (R := roomy_rasterizer) [7] = Printed 6 3 image' /\
     Z.of_nat (length image') = 6 * 3 /\
     (forall i j, 0 <= i < 6 -> 0 <= j < 3 ->
        uncovered 3
          (render_slots (R := roomy_rasterizer) 6 3 64
             (replicate (Z.to_nat (6 * 3)) Byte.x00) [7]) i j ->
        image' !! pixel_index 6 i j = Some Byte.x00) /\
     image' !! pixel_index 6 5 0 = Some Byte.x00).
Proof.
  destruct (clipping_safety sample_image 4 3 sample_bitmap (-1) 2)
    as [Hcall Hmain];
    try (unfold canvas_wf, bitmap_wf, int_range, INT_MIN, INT_MAX; simpl; lia).
  split; [exact Hcall|].
  destruct (Hmain roomy_rasterizer [7] roomy_rasterizer_wf
              ltac:(vm_compute; discriminate) ltac:(vm_compute; discriminate)
              ltac:(vm_compute; discriminate))
    as (image' & Hg & Hl & Hzero).
  exists image'. split; [exact Hg|]. split; [exact Hl|].
  split; [exact Hzero|].
  apply Hzero;
    [vm_compute; split; [discriminate|reflexivity]
    |vm_compute; split; [discriminate|reflexivity]|].
  intros slot Hin. apply list_elem_of_singleton in Hin. subst slot.
  unfold in_rectangle. vm_compute. intros [[_ H] _]. discriminate H.
Defined.

(** C3, as stated, fails on a canvas of more than [INT_MAX] pixels.  On a
    canvas of 65536 x 65536 a glyph drawn at [(0, 32768)] has every pixel of
    its rectangle on the canvas, and the index [32768 * 65536 + 0] of the
    first one, computed in [int], is [-2147483648]: the write leaves the
    array, whatever array is given.  In [main] a well-formed rasterizer with
    a box of 65536 x 65536 pixels makes [width * height] wrap to [0]; the
    canvas has no byte and the first [DrawGlyph] call writes outside it. *)
Lemma clipping_safety_counterexample :
  (forall image, DrawGlyph image 65536 65536 sample_bitmap 0 32768 = None) /\
  (forall i j, in_rectangle sample_bitmap 0 32768 i j ->
     0 <= i < 65536 /\ 0 <= j < 65536) /\
  to_int (32768 * 65536 + 0) = -2147483648 /\
  rasterizer_wf square_rasterizer /\
  canvas_width (m_bbox (metrics_pass (R := square_rasterizer) [7])) = 65536 /\
  canvas_height (m_bbox (metrics_pass (R := square_rasterizer) [7])) = 65536 /\
  new_uchar_array (to_int (65536 * 65536)) = Some [] /\
  glyph_stage (R := square_rasterizer) [7] = Undefined.
Proof.
  split; [intros image; reflexivity|].
  split; [unfold in_rectangle; simpl; lia|].
  split; [reflexivity|]. split.
  { intros t c. split.
    - unfold bitmap_wf, INT_MAX. simpl. lia.
    - apply to_int_range. }
  repeat split; vm_compute; reflexivity.
Qed.

(** ** Loop states *)

(** The state at the start of iteration [n] is the state the loop reaches on
    the first [n] elements. *)
Lemma states_before_lookup {St A : Type} (step : St -> A -> St) l :
  forall s n, (n < length l)%nat ->
    states_before step s l !! n = Some (fold_left step (take n l) s).
Proof.
  induction l as [|a l IH]; intros s n Hn; simpl in Hn; [lia|].
  destruct n as [|n]; [done|]. simpl. apply IH. lia.
Qed.

Lemma fold_left_take_S {St A : Type} (step : St -> A -> St) l s n a :
  l !! n = Some a ->
  fold_left step (take (S n) l) s = step (fold_left step (take n l) s) a.
Proof.
  intros Hn. rewrite (take_S_r l n a Hn), fold_left_app. done.
Qed.

Lemma render_slots_lookup {R : Rasterizer} width height aboveOriginShift image
    glyphCodepoints n codepoint :
  glyphCodepoints !! n = Some codepoint ->
  render_slots width height aboveOriginShift image glyphCodepoints !! n =
    Some (FT_Load_Glyph
            (r_translation
               (render_pass width height aboveOriginShift image
                  (take n glyphCodepoints)))
            codepoint).
Proof.
  intros Hn. unfold render_slots, render_slots_from, render_pass.
  apply lookup_zip_with_Some. eexists _, _. split; [done|]. split; [|done].
  rewrite list_lookup_fmap, states_before_lookup; [done|].
  by apply lookup_lt_Some in Hn.
Qed.

(** C6: the destination of a glyph.  At the glyph of index [n] the render
    pass calls [DrawGlyph] on the slot it has just loaded, at
    [(bitmap_left, height - bitmap_top)], the difference being taken in
    [FT_Int]; and when that difference and the far corner of the bitmap are
    representable, the pixel [(p, q)] of the bitmap is or-ed into the canvas
    pixel [(bitmap_left + p, height - bitmap_top + q)] whenever that pixel
    is on the canvas: the top-left pixel of the bitmap lands at
    [(bitmap_left, height - bitmap_top)]. *)
Theorem glyph_destination {R : Rasterizer} width height aboveOriginShift image
    glyphCodepoints n codepoint :
  glyphCodepoints !! n = Some codepoint ->
  let st := render_pass width height aboveOriginShift image
              (take n glyphCodepoints) in
  let st' := render_pass width height aboveOriginShift image
               (take (S n) glyphCodepoints) in
  let glyphSlot := FT_Load_Glyph (r_translation st) codepoint in
  render_slots width height aboveOriginShift image glyphCodepoints !! n
    = Some glyphSlot /\
  r_image st' =
    (img ← r_image st;
     DrawGlyph img width height (bitmap glyphSlot) (bitmap_left glyphSlot)
       (to_int (height - bitmap_top glyphSlot))) /\
  (int_range (height - bitmap_top glyphSlot) ->
   to_int (height - bitmap_top glyphSlot) = height - bitmap_top glyphSlot) /\
  (forall img,
     r_image st = Some img -> canvas_wf img width height ->
     bitmap_wf (bitmap glyphSlot) ->
     int_range (bitmap_left glyphSlot) ->
     int_range (height - bitmap_top glyphSlot) ->
     int_range (bitmap_left glyphSlot + bitmap_width (bitmap glyphSlot)) ->
     int_range (height - bitmap_top glyphSlot
                + bitmap_rows (bitmap glyphSlot)) ->
     exists img',
       r_image st' = Some img' /\
       forall p q,
         0 <= p < bitmap_width (bitmap glyphSlot) ->
         0 <= q < bitmap_rows (bitmap glyphSlot) ->
         0 <= bitmap_left glyphSlot + p < width ->
         0 <= height - bitmap_top glyphSlot + q < height ->
         img' !! pixel_index width (bitmap_left glyphSlot + p)
                   (height - bitmap_top glyphSlot + q) =
           (fun old => uchar_or old (source_pixel (bitmap glyphSlot) p q))
             <$> img !! pixel_index width (bitmap_left glyphSlot + p)
                           (height - bitmap_top glyphSlot + q)).
Proof.
  intros Hn st st' glyphSlot.
  assert (r_image st' =
            (img ← r_image st;
             DrawGlyph img width height (bitmap glyphSlot)
               (bitmap_left glyphSlot)
               (to_int (height - bitmap_top glyphSlot)))) as Hcall.
  { unfold st', render_pass.
    by rewrite (fold_left_take_S _ _ _ n codepoint Hn). }
  split; [by apply render_slots_lookup|].
  split; [done|]. split; [apply to_int_small|].
  intros img Hst Hc Hb Hl Ht Hfx Hfy. rewrite Hcall, Hst. simpl.
  rewrite (to_int_small _ Ht).
  destruct (DrawGlyph_total img width height (bitmap glyphSlot)
              (bitmap_left glyphSlot) (height - bitmap_top glyphSlot))
    as (img' & HD & Hc' & Hpix); try done.
  exists img'. split; [done|]. intros p q Hp Hq Hi Hj.
  rewrite (Hpix _ _ Hi Hj), in_rectangle_visited;
    [|done|done|unfold in_rectangle; lia].
  f_equal. by replace (bitmap_left glyphSlot + p - bitmap_left glyphSlot)
    with p by lia;
    replace (height - bitmap_top glyphSlot + q
             - (height - bitmap_top glyphSlot)) with q by lia.
Qed.

Lemma glyph_destination_witness :
  r_image (render_pass (R := sample_rasterizer) 4 2 64 sample_zeros
             (take 2 [7; 7])) =
    (img ← r_image (render_pass (R := sample_rasterizer) 4 2 64 sample_zeros
                      (take 1 [7; 7]));
     DrawGlyph img 4 2 sample_bitmap 2 0).
Proof.
  exact (proj1 (proj2 (glyph_destination (R := sample_rasterizer) 4 2 64
                         sample_zeros [7; 7] 1 7 eq_refl))).
Defined.

(** ** The metrics pass *)

Lemma metrics_step_contains {R : Rasterizer} st codepoint :
  bbox_contains (m_bbox (metrics_step st codepoint)) (m_bbox st) /\
  bbox_contains (m_bbox (metrics_step st codepoint))
    (FT_Glyph_Get_CBox (FT_Load_Glyph (m_translation st) codepoint)).
Proof.
  unfold bbox_contains, metrics_step. simpl.
  rewrite !Z.gtb_ltb. repeat split; bool_cases.
Qed.

Lemma bbox_contains_trans a b c :
  bbox_contains a b -> bbox_contains b c -> bbox_contains a c.
Proof. unfold bbox_contains. lia. Qed.

(** The box of the metrics loop reaches as far as the box it started from
    and as every control box it queried. *)
Lemma metrics_fold_contains {R : Rasterizer} glyphCodepoints :
  forall st,
    bbox_contains (m_bbox (fold_left metrics_step glyphCodepoints st))
      (m_bbox st) /\
    forall b,
      b ∈ zip_with
            (fun st codepoint =>
               FT_Glyph_Get_CBox (FT_Load_Glyph (m_translation st) codepoint))
            (states_before metrics_step st glyphCodepoints) glyphCodepoints ->
      bbox_contains (m_bbox (fold_left metrics_step glyphCodepoints st)) b.
Proof.
  induction glyphCodepoints as [|c l IH]; intros st; simpl.
  - split; [unfold bbox_contains; lia|]. intros b Hb. inversion Hb.
  - destruct (IH (metrics_step st c)) as [H1 H2].
    destruct (metrics_step_contains st c) as [H3 H4].
    split; [by eapply bbox_contains_trans|].
    intros b Hb. apply elem_of_cons in Hb as [->|Hb].
    + by eapply bbox_contains_trans.
    + by apply H2.
Qed.

(** C7: the union box is ordered.  For a non-empty glyph sequence whose
    queried control boxes all have [xMin <= xMax] and [yMin <= yMax], the
    box of the metrics pass reaches as far as each of them and has
    [xMin <= xMax] and [yMin <= yMax]. *)
Theorem metrics_bbox_ordered {R : Rasterizer} glyphCodepoints :
  glyphCodepoints <> [] ->
  Forall bbox_ordered (metrics_boxes glyphCodepoints) ->
  xMin (m_bbox (metrics_pass glyphCodepoints))
    <= xMax (m_bbox (metrics_pass glyphCodepoints)) /\
  yMin (m_bbox (metrics_pass glyphCodepoints))
    <= yMax (m_bbox (metrics_pass glyphCodepoints)) /\
  Forall (bbox_contains (m_bbox (metrics_pass glyphCodepoints)))
    (metrics_boxes glyphCodepoints).
Proof.
  intros Hne Hall.
  destruct (metrics_fold_contains glyphCodepoints metrics_init) as [_ Hin].
  fold (metrics_pass glyphCodepoints) in Hin.
  fold (metrics_boxes glyphCodepoints) in Hin.
  assert (Forall (bbox_contains (m_bbox (metrics_pass glyphCodepoints)))
            (metrics_boxes glyphCodepoints)) as Hc
    by (by apply Forall_forall).
  destruct (metrics_boxes glyphCodepoints) as [|b bs] eqn:Hb.
  - destruct glyphCodepoints; [done|]. discriminate Hb.
  - apply Forall_cons in Hall as [[Hx Hy] _].
    pose proof Hc as Hc'. apply Forall_cons in Hc' as [Hcb _].
    unfold bbox_contains in Hcb. repeat split; [lia|lia|done].
Qed.

Lemma metrics_bbox_ordered_witness :
  xMin (m_bbox (metrics_pass (R := sample_rasterizer) [7; 7]))
    <= xMax (m_bbox (metrics_pass (R := sample_rasterizer) [7; 7])) /\
  yMin (m_bbox (metrics_pass (R := sample_rasterizer) [7; 7]))
    <= yMax (m_bbox (metrics_pass (R := sample_rasterizer) [7; 7])) /\
  Forall (bbox_contains (m_bbox (metrics_pass (R := sample_rasterizer) [7; 7])))
    (metrics_boxes (R := sample_rasterizer) [7; 7]).
Proof.
  apply (metrics_bbox_ordered (R := sample_rasterizer) [7; 7]).
  - discriminate.
  - repeat constructor; vm_compute; discriminate.
Defined.

Lemma aboveOriginShift_range {R : Rasterizer} glyphCodepoints :
  forall st, int_range (m_aboveOriginShift st) ->
    int_range (m_aboveOriginShift (fold_left metrics_step glyphCodepoints st)).
Proof.
  induction glyphCodepoints as [|c l IH]; intros st Hst; [done|].
  simpl. apply IH. unfold metrics_step. simpl.
  destruct (_ >? _); [apply to_int_range|done].
Qed.

(** ** The two pen walks *)

Lemma pens_shifted {R : Rasterizer} width height shift glyphCodepoints :
  advance_fixed R ->
  forall stm str,
    r_translation str = shift_pen shift (m_translation stm) ->
    r_translation <$>
      states_before (render_step width height) str glyphCodepoints
    = shift_pen shift <$>
        (m_translation <$> states_before metrics_step stm glyphCodepoints).
Proof.
  intros Hadv.
  induction glyphCodepoints as [|c l IH]; intros stm str Hpen; [done|].
  simpl. f_equal; [done|]. apply IH.
  unfold render_step, metrics_step. simpl. rewrite Hpen.
  rewrite (Hadv _ (m_translation stm) c).
  unfold advance_pen, shift_pen. simpl. f_equal.
  rewrite !to_long_add_l. f_equal. lia.
Qed.

(** C2, as the code has it: the render pass starts its pen at
    [(0, aboveOriginShift)], not at [(0, 0)].  When the advance of a glyph
    does not depend on the translation, the two walks visit as many pen
    positions, and at each glyph the pen of the render pass has the [x] of
    the pen of the metrics pass and its [y] plus [aboveOriginShift] (in
    [FT_Pos] arithmetic). *)
Theorem render_pens_shifted {R : Rasterizer} width height image
    glyphCodepoints :
  advance_fixed R ->
  render_pens width height (m_aboveOriginShift (metrics_pass glyphCodepoints))
    image glyphCodepoints
  = shift_pen (m_aboveOriginShift (metrics_pass glyphCodepoints))
      <$> metrics_pens glyphCodepoints.
Proof.
  intros Hadv. unfold render_pens, metrics_pens.
  apply pens_shifted; [done|].
  unfold render_init, metrics_init, shift_pen. simpl. f_equal.
  symmetry. apply to_long_small.
  assert (int_range (m_aboveOriginShift metrics_init)) as H0
    by (vm_compute; split; discriminate).
  pose proof (aboveOriginShift_range glyphCodepoints metrics_init H0) as Hr.
  fold (metrics_pass glyphCodepoints) in Hr.
  unfold int_range, INT_MIN, INT_MAX in Hr.
  change (2 ^ 63) with 9223372036854775808. lia.
Qed.

Lemma sample_advance_fixed : advance_fixed sample_rasterizer.
Proof. by intros t t' c. Qed.

Lemma render_pens_shifted_witness :
  render_pens (R := sample_rasterizer) 4 2
    (m_aboveOriginShift (metrics_pass (R := sample_rasterizer) [7; 7]))
    sample_zeros [7; 7]
  = shift_pen (m_aboveOriginShift (metrics_pass (R := sample_rasterizer) [7; 7]))
      <$> metrics_pens (R := sample_rasterizer) [7; 7].
Proof.
  apply (render_pens_shifted (R := sample_rasterizer)).
  exact sample_advance_fixed.
Defined.

(** C2, as stated, fails: for the sample rasterizer, whose advances do not
    depend on the translation, and two glyphs, the render pass walks
    [(0, 64); (128, 64)] and the metrics pass [(0, 0); (128, 0)]. *)
Lemma pens_equal_counterexample :
  advance_fixed sample_rasterizer /\
  metrics_pens (R := sample_rasterizer) [7; 7]
    = [ {| vector_x := 0; vector_y := 0 |};
        {| vector_x := 128; vector_y := 0 |} ] /\
  render_pens (R := sample_rasterizer) 4 2
    (m_aboveOriginShift (metrics_pass (R := sample_rasterizer) [7; 7]))
    sample_zeros [7; 7]
    = [ {| vector_x := 0; vector_y := 64 |};
        {| vector_x := 128; vector_y := 64 |} ] /\
  render_pens (R := sample_rasterizer) 4 2
    (m_aboveOriginShift (metrics_pass (R := sample_rasterizer) [7; 7]))
    sample_zeros [7; 7]
    <> metrics_pens (R := sample_rasterizer) [7; 7].
Proof.
  split; [exact sample_advance_fixed|].
  split; [reflexivity|]. split; [reflexivity|].
  vm_compute. discriminate.
Qed.

(** ** Canvas sizing *)

Lemma canvas_extent lo hi :
  lo <= hi -> hi - lo < 64 * 2 ^ 31 ->
  to_int (Z.quot (to_long (hi - lo)) 64) = Z.quot (hi - lo) 64 /\
  Z.quot (hi - lo) 64 = (hi - lo) / 64.
Proof.
  intros Hle Hlt.
  rewrite to_long_small by lia.
  rewrite Z.quot_div_nonneg by lia.
  split; [|done]. apply to_int_small.
  assert (0 <= (hi - lo) / 64) by (apply Z.div_pos; lia).
  assert ((hi - lo) / 64 < 2 ^ 31) by (apply Z.div_lt_upper_bound; lia).
  unfold int_range, INT_MIN, INT_MAX. lia.
Qed.

(** C1, as the code has it: the quotient is stored in an [FT_Int].  For a
    box with [xMin <= xMax] and [yMin <= yMax] whose extents are below
    [64 * 2 ^ 31], the canvas width is [(xMax - xMin) / 64] and the height
    [(yMax - yMin) / 64], truncated toward zero, which is the floor of the
    quotient; these are the dimensions of the canvas [main] prints. *)
Theorem canvas_dimensions {R : Rasterizer} (bbox : FT_BBox) :
  xMin bbox <= xMax bbox -> yMin bbox <= yMax bbox ->
  xMax bbox - xMin bbox < 64 * 2 ^ 31 ->
  yMax bbox - yMin bbox < 64 * 2 ^ 31 ->
  canvas_width bbox = Z.quot (xMax bbox - xMin bbox) 64 /\
  canvas_height bbox = Z.quot (yMax bbox - yMin bbox) 64 /\
  canvas_width bbox = (xMax bbox - xMin bbox) / 64 /\
  canvas_height bbox = (yMax bbox - yMin bbox) / 64 /\
  forall glyphCodepoints width height image,
    bbox = m_bbox (metrics_pass glyphCodepoints) ->
    glyph_stage glyphCodepoints = Printed width height image ->
    width = Z.quot (xMax bbox - xMin bbox) 64 /\
    height = Z.quot (yMax bbox - yMin bbox) 64.
Proof.
  intros Hx Hy Hxe Hye.
  destruct (canvas_extent _ _ Hx Hxe) as [Hw Hwf].
  destruct (canvas_extent _ _ Hy Hye) as [Hh Hhf].
  fold (canvas_width bbox) in Hw. fold (canvas_height bbox) in Hh.
  do 4 (split; [congruence|]).
  intros glyphCodepoints width height image -> Hg.
  unfold glyph_stage in Hg.
  destruct (new_uchar_array _); [|discriminate].
  destruct (r_image _); [|discriminate].
  injection Hg as <- <- _. by split.
Qed.

Lemma canvas_dimensions_witness :
  canvas_width {| xMin := 0; yMin := -64; xMax := 256; yMax := 64 |}
    = Z.quot (256 - 0) 64 /\
  canvas_height {| xMin := 0; yMin := -64; xMax := 256; yMax := 64 |}
    = Z.quot (64 - -64) 64.
Proof.
  pose proof (canvas_dimensions (R := sample_rasterizer)
                {| xMin := 0; yMin := -64; xMax := 256; yMax := 64 |})
    as H.
  simpl in H. destruct H as (Hw & Hh & _); [lia|lia|lia|lia|]. by split.
Defined.

(** C1, as stated, fails: a box [2 ^ 37] units wide has
    [(xMax - xMin) / 64 = 2 ^ 31], which the [FT_Int] width cannot hold; it
    is the box the metrics pass computes for the one glyph of
    [wide_rasterizer]. *)
Lemma canvas_width_counterexample :
  let bbox := m_bbox (metrics_pass (R := wide_rasterizer) [7]) in
  bbox = {| xMin := 0; yMin := 0; xMax := 2 ^ 37; yMax := 64 |} /\
  xMin bbox <= xMax bbox /\ yMin bbox <= yMax bbox /\
  Z.quot (xMax bbox - xMin bbox) 64 = 2147483648 /\
  canvas_width bbox = -2147483648 /\
  canvas_width bbox <> Z.quot (xMax bbox - xMin bbox) 64.
Proof. vm_compute. repeat split; discriminate. Qed.

(** ** The empty glyph sequence *)

Lemma glyph_stage_not_failed {R : Rasterizer} glyphCodepoints e :
  glyph_stage glyphCodepoints <> Failed e.
Proof.
  unfold glyph_stage.
  destruct (new_uchar_array _); [|discriminate].
  destruct (r_image _); discriminate.
Qed.

(** C4, as the code has it: [main] has no test for an empty glyph sequence.
    On the empty sequence the metrics pass leaves the box at its sentinels
    and [aboveOriginShift] at [INT_MIN]; canvas sizing is carried out on
    them and gives the width and the height [-67108863]; the canvas
    allocation is then requested with their product, computed in [int]
    (where it overflows: wrapped, the request is negative and
    [new unsigned char[]] throws); nothing reports an error of the taxonomy. *)
Theorem empty_run_not_detected {R : Rasterizer} :
  m_bbox (metrics_pass []) =
    {| xMin := INT_MAX; yMin := INT_MAX; xMax := INT_MIN; yMax := INT_MIN |} /\
  m_aboveOriginShift (metrics_pass []) = INT_MIN /\
  canvas_width (m_bbox (metrics_pass [])) = -67108863 /\
  canvas_height (m_bbox (metrics_pass [])) = -67108863 /\
  glyph_stage [] =
    Thrown_bad_array_new_length (to_int (-67108863 * -67108863)) /\
  forall e, glyph_stage [] <> Failed e.
Proof.
  repeat split; try reflexivity. intros e. apply glyph_stage_not_failed.
Qed.

(** C4, as stated, fails: on the empty sequence the rendering section does
    not end in the report of an [EmptyRunError]; it sizes the canvas and
    requests its allocation. *)
Lemma empty_run_counterexample :
  canvas_width (m_bbox (metrics_pass (R := sample_rasterizer) [])) = -67108863 /\
  canvas_height (m_bbox (metrics_pass (R := sample_rasterizer) [])) = -67108863 /\
  glyph_stage (R := sample_rasterizer) [] =
    Thrown_bad_array_new_length (-134217727) /\
  glyph_stage (R := sample_rasterizer) [] <> Failed EmptyRunError.
Proof. repeat split; try reflexivity. discriminate. Qed.

(** ** The status of the text stage *)



(** ** The conversion buffers *)

Lemma utf16_point_le_utf8 c :
  (length (utf16_encode_point c) <= length (utf8_encode_point c))%nat.
Proof.
  unfold utf16_encode_point, utf8_encode_point.
  destruct (Z.ltb_spec c 128), (Z.ltb_spec c 2048), (Z.ltb_spec c 65536);
    simpl; lia.
Qed.

(** The first buffer, of [str.length () + 1] code units, holds the UTF-16
    form of any text and its terminator. *)
Lemma utf16_buffer_sufficient text :
  Z.of_nat (length (utf16_encode text)) + 1
  <= utf16_capacity (utf8_encode text).
Proof.
  unfold utf16_capacity, utf16_encode, utf8_encode.
  induction text as [|c text IH]; [simpl; lia|].
  rewrite !fmap_cons. cbn [concat]. rewrite !length_app.
  pose proof (utf16_point_le_utf8 c). lia.
Qed.

(** The second buffer, of twice the number of code units, holds the UTF-8
    form of a text that has no code point from U+0800 to U+FFFF. *)
Lemma utf8_buffer_sufficient text :
  Forall (fun c => c < 2048 \/ 65536 <= c) text ->
  Z.of_nat (length (utf8_encode text))
  <= utf8_capacity (Z.of_nat (length (utf16_encode text))).
Proof.
  unfold utf8_capacity, utf16_encode, utf8_encode.
  induction 1 as [|c text Hc _ IH]; [simpl; lia|].
  rewrite !fmap_cons. cbn [concat]. rewrite !length_app.
  assert (Z.of_nat (length (utf8_encode_point c))
          <= Z.of_nat (length (utf16_encode_point c)) * 2); [|lia].
  unfold utf16_encode_point, utf8_encode_point.
  destruct (Z.ltb_spec c 128), (Z.ltb_spec c 2048), (Z.ltb_spec c 65536);
    simpl; lia.
Qed.

(** The lengths of both forms do not depend on the order of the text. *)
Lemma encoded_lengths_permutation text visual :
  Permutation text visual ->
  length (utf8_encode visual) = length (utf8_encode text) /\
  length (utf16_encode visual) = length (utf16_encode text).
Proof.
  unfold utf8_encode, utf16_encode.
  induction 1; rewrite ?fmap_cons; cbn [concat]; rewrite ?length_app; lia.
Qed.

(** C9 at the sample text of line 94 (U+2588, four Arabic letters, U+2588):
    the text is well-formed; the first buffer (15 code units) holds its 6
    code units; the second buffer is [6 * 2 = 12] bytes while the UTF-8 form
    of the text, in any order, is 14 bytes; the text stage leaves
    [U_BUFFER_OVERFLOW_ERROR] and hands the shaper a text whose last
    character is cut. *)
Theorem utf8_buffer_too_small :
  Forall scalar_value blocks_text /\
  utf16_capacity blocks_str = 15 /\
  length (utf16_encode blocks_text) = 6%nat /\
  utf8_capacity 6 = 12 /\
  length (utf8_encode (reverse_rtl_runs [] blocks_text)) = 14%nat /\
  text_stage (E := sample_engines) blocks_str =
    ([Byte.xe2; Byte.x96; Byte.x88; Byte.xd9; Byte.x8a; Byte.xd8; Byte.xa8;
      Byte.xd8; Byte.xb1; Byte.xd8; Byte.xb9; Byte.xe2; Byte.x00; Byte.x00],
     U_BUFFER_OVERFLOW_ERROR).
Proof.
  split.
  { repeat constructor; unfold scalar_value; lia. }
  repeat split; reflexivity.
Qed.

(** * Further properties *)

(** ** DrawGlyph *)

Lemma uchar_or_swap a u v :
  uchar_or (uchar_or a u) v = uchar_or (uchar_or a v) u.
Proof.
  apply byte.unsigned_inj. rewrite !unsigned_uchar_or.
  rewrite <- !Z.lor_assoc. f_equal. apply Z.lor_comm.
Qed.

(** X1: two [DrawGlyph] calls commute.  Drawing one bitmap and then another
    on a canvas gives the canvas that drawing them in the other order gives,
    whether or not their rectangles overlap. *)
Theorem DrawGlyph_commute image width height bitmap1 x1 y1 bitmap2 x2 y2 :
  canvas_wf image width height ->
  bitmap_wf bitmap1 -> int_range x1 -> int_range y1 ->
  bitmap_wf bitmap2 -> int_range x2 -> int_range y2 ->
  exists image',
    (img ← DrawGlyph image width height bitmap1 x1 y1;
     DrawGlyph img width height bitmap2 x2 y2) = Some image' /\
    (img ← DrawGlyph image width height bitmap2 x2 y2;
     DrawGlyph img width height bitmap1 x1 y1) = Some image'.
Proof.
  intros Hc Hb1 Hx1 Hy1 Hb2 Hx2 Hy2.
  destruct (DrawGlyph_total image width height bitmap1 x1 y1)
    as (a1 & HD1 & Hc1 & Hp1); try done.
  destruct (DrawGlyph_total a1 width height bitmap2 x2 y2)
    as (a12 & HD12 & Hc12 & Hp12); try done.
  destruct (DrawGlyph_total image width height bitmap2 x2 y2)
    as (a2 & HD2 & Hc2 & Hp2); try done.
  destruct (DrawGlyph_total a2 width height bitmap1 x1 y1)
    as (a21 & HD21 & Hc21 & Hp21); try done.
  exists a12. rewrite HD1, HD2. simpl. split; [done|].
  rewrite HD21. f_equal.
  apply (canvas_eq _ _ width height); [done|done|].
  intros i j Hi Hj.
  rewrite (Hp21 i j Hi Hj), (Hp2 i j Hi Hj), (Hp12 i j Hi Hj), (Hp1 i j Hi Hj).
  destruct (visited bitmap1 x1 y1 i j), (visited bitmap2 x2 y2 i j);
    try done.
  destruct (image !! pixel_index width i j); [|done].
  simpl. by rewrite uchar_or_swap.
Qed.

Lemma DrawGlyph_commute_witness :
  exists image',
    (img ← DrawGlyph sample_image 4 3 sample_bitmap 3 (-1);
     DrawGlyph img 4 3 sample_bitmap 2 0) = Some image' /\
    (img ← DrawGlyph sample_image 4 3 sample_bitmap 2 0;
     DrawGlyph img 4 3 sample_bitmap 3 (-1)) = Some image'.
Proof.
  apply DrawGlyph_commute;
    unfold canvas_wf, bitmap_wf, int_range, INT_MIN, INT_MAX; simpl; lia.
Defined.

(** X2: what a [DrawGlyph] call does, pixel by pixel.  When the far corner
    of the destination rectangle is representable in [FT_Int], a pixel of
    the canvas inside the rectangle is or-ed with the pixel of the bitmap
    at the same offset from the corner [(x, y)], and a pixel outside it is
    left as it was. *)
Theorem DrawGlyph_pixelwise image width height glyphBitmap x y :
  canvas_wf image width height -> bitmap_wf glyphBitmap ->
  int_range x -> int_range y ->
  int_range (x + bitmap_width glyphBitmap) ->
  int_range (y + bitmap_rows glyphBitmap) ->
  exists image',
    DrawGlyph image width height glyphBitmap x y = Some image' /\
    length image' = length image /\
    forall i j, 0 <= i < width -> 0 <= j < height ->
      (in_rectangle glyphBitmap x y i j ->
       exists old v,
         image !! pixel_index width i j = Some old /\
         bitmap_buffer glyphBitmap
           !! Z.to_nat ((j - y) * bitmap_width glyphBitmap + (i - x))
         = Some v /\
         image' !! pixel_index width i j = Some (uchar_or old v)) /\
      (~ in_rectangle glyphBitmap x y i j ->
       image' !! pixel_index width i j = image !! pixel_index width i j).
Proof.
  intros Hc Hb Hx Hy Hfx Hfy.
  destruct (DrawGlyph_total image width height glyphBitmap x y)
    as (image' & HD & Hc' & Hpix); try done.
  exists image'. split; [done|]. split.
  { destruct Hc as (_ & _ & _ & Hl), Hc' as (_ & _ & _ & Hl'). lia. }
  intros i j Hi Hj. rewrite (Hpix i j Hi Hj). split.
  - intros Hin. rewrite (in_rectangle_visited _ _ _ _ _ Hfx Hfy Hin).
    destruct (canvas_lookup image width height i j Hc Hi Hj) as [old Ho].
    destruct Hb as (Hbw & Hbr & Hbwr & Hbl). destruct Hin as [Hix Hjy].
    assert (0 <= (j - y) * bitmap_width glyphBitmap + (i - x)
            < bitmap_width glyphBitmap * bitmap_rows glyphBitmap) by nia.
    destruct (lookup_lt_is_Some_2 (bitmap_buffer glyphBitmap)
                (Z.to_nat ((j - y) * bitmap_width glyphBitmap + (i - x))))
      as [v Hv]; [lia|].
    exists old, v. split; [done|]. split; [done|].
    rewrite Ho. simpl. do 2 f_equal.
    unfold source_pixel, bitmap_pixel, to_uint.
    rewrite Z.mod_small by (unfold INT_MAX in *; lia). by rewrite Hv.
  - intros Hout. destruct (visited glyphBitmap x y i j) eqn:Hv; [|done].
    destruct Hout. by apply visited_in_rectangle.
Qed.

Lemma DrawGlyph_pixelwise_witness :
  exists image',
    DrawGlyph sample_image 4 3 sample_bitmap 3 (-1) = Some image' /\
    length image' = length sample_image /\
    forall i j, 0 <= i < 4 -> 0 <= j < 3 ->
      (in_rectangle sample_bitmap 3 (-1) i j ->
       exists old v,
         sample_image !! pixel_index 4 i j = Some old /\
         bitmap_buffer sample_bitmap
           !! Z.to_nat ((j - -1) * bitmap_width sample_bitmap + (i - 3))
         = Some v /\
         image' !! pixel_index 4 i j = Some (uchar_or old v)) /\
      (~ in_rectangle sample_bitmap 3 (-1) i j ->
       image' !! pixel_index 4 i j = sample_image !! pixel_index 4 i j).
Proof.
  apply DrawGlyph_pixelwise;
    unfold canvas_wf, bitmap_wf, int_range, INT_MIN, INT_MAX; simpl; lia.
Defined.

(** X3: a glyph that lies off the canvas changes nothing.  When the
    destination rectangle is to the right of, to the left of, below or
    above the canvas, or is empty (a bitmap of no column or of no row),
    [DrawGlyph] returns the canvas it was given. *)
Theorem DrawGlyph_off_canvas image width height glyphBitmap x y :
  canvas_wf image width height -> bitmap_wf glyphBitmap ->
  int_range x -> int_range y ->
  width <= x \/ x + bitmap_width glyphBitmap <= 0 \/
  height <= y \/ y + bitmap_rows glyphBitmap <= 0 \/
  bitmap_width glyphBitmap = 0 \/ bitmap_rows glyphBitmap = 0 ->
  DrawGlyph image width height glyphBitmap x y = Some image.
Proof.
  intros Hc Hb Hx Hy Hoff.
  destruct (DrawGlyph_frame image width height glyphBitmap x y)
    as (image' & HD & Hc' & Hsame); try done.
  rewrite HD. f_equal. apply (canvas_eq _ _ width height); [done|done|].
  intros i j Hi Hj. apply Hsame; [done|done|].
  unfold in_rectangle. lia.
Qed.

Lemma DrawGlyph_off_canvas_witness :
  DrawGlyph sample_image 4 3 sample_bitmap (-2147483648) 1
  = Some sample_image /\
  DrawGlyph sample_image 4 3
    {| bitmap_rows := 2; bitmap_width := 0; bitmap_buffer := [] |} 1 1
  = Some sample_image.
Proof.
  split; apply DrawGlyph_off_canvas;
    unfold canvas_wf, bitmap_wf, int_range, INT_MIN, INT_MAX; simpl; lia.
Defined.

Lemma for_loop_skip {St : Type} (body : Z -> Z -> St -> option St) n :
  (forall i p s, body i p s = Some s) ->
  forall i p s, for_loop n i p body s = Some s.
Proof.
  intros Hbody. induction n as [|n IH]; intros i p s; [done|].
  simpl. rewrite Hbody. simpl. apply IH.
Qed.

(** X4: a canvas without area is never touched.  When [width] or [height]
    is zero or negative, [DrawGlyph] reads no pixel of the bitmap and writes
    none of the image, whatever the image, the bitmap and the offset are. *)
Theorem DrawGlyph_no_area image width height glyphBitmap x y :
  width <= 0 \/ height <= 0 ->
  DrawGlyph image width height glyphBitmap x y = Some image.
Proof.
  intros Hno. unfold DrawGlyph.
  apply for_loop_skip. intros i p s.
  apply for_loop_skip. intros j q s'.
  unfold DrawGlyph_body. rewrite !Z.geb_leb.
  destruct (Z.ltb_spec i 0); [done|]. destruct (Z.ltb_spec j 0); [done|].
  destruct (Z.leb_spec width i); [done|].
  destruct (Z.leb_spec height j); [done|]. lia.
Qed.

Lemma DrawGlyph_no_area_witness :
  DrawGlyph [] (-67108863) (-67108863) sample_bitmap 0 0 = Some [].
Proof. apply DrawGlyph_no_area. left. lia. Defined.

(** ** The render pass *)

Lemma render_slots_from_cons {R : Rasterizer} width height st c l :
  render_slots_from width height st (c :: l) =
    FT_Load_Glyph (r_translation st) c
      :: render_slots_from width height (render_step width height st c) l.
Proof. reflexivity. Qed.

Lemma or_slots_cons height slot slots i j v :
  or_slots height (slot :: slots) i j v =
    or_slots height slots i j
      (if visited (bitmap slot) (bitmap_left slot)
            (to_int (height - bitmap_top slot)) i j
       then uchar_or v
              (source_pixel (bitmap slot) (i - bitmap_left slot)
                 (j - to_int (height - bitmap_top slot)))
       else v).
Proof. reflexivity. Qed.

Lemma render_fold_pixelwise {R : Rasterizer} width height glyphCodepoints :
  rasterizer_wf R ->
  forall st image,
    r_image st = Some image -> canvas_wf image width height ->
    exists image',
      r_image (fold_left (render_step width height) glyphCodepoints st)
        = Some image' /\
      canvas_wf image' width height /\
      forall i j, 0 <= i < width -> 0 <= j < height ->
        image' !! pixel_index width i j =
          or_slots height
            (render_slots_from width height st glyphCodepoints) i j
            <$> image !! pixel_index width i j.
Proof.
  intros HR.
  induction glyphCodepoints as [|c l IH]; intros st image Hst Hc.
  - exists image. simpl. split; [done|]. split; [done|].
    intros i j _ _. by destruct (image !! _).
  - destruct (HR (r_translation st) c) as [Hb Hl].
    destruct (DrawGlyph_total image width height
                (bitmap (FT_Load_Glyph (r_translation st) c))
                (bitmap_left (FT_Load_Glyph (r_translation st) c))
                (to_int (height
                         - bitmap_top (FT_Load_Glyph (r_translation st) c))))
      as (img1 & HD & Hc1 & Hp1); [done|done|done|apply to_int_range|].
    destruct (IH (render_step width height st c) img1)
      as (image' & Hf & Hc' & Hp').
    { unfold render_step. simpl. rewrite Hst. simpl. done. }
    { done. }
    exists image'. split; [done|]. split; [done|].
    intros i j Hi Hj. rewrite (Hp' i j Hi Hj), (Hp1 i j Hi Hj).
    rewrite render_slots_from_cons.
    destruct (image !! pixel_index width i j) as [old|].
    + cbn [fmap option_fmap option_map]. rewrite or_slots_cons.
      by destruct (visited _ _ _ i j).
    + by destruct (visited _ _ _ i j).
Qed.

(** X5: what the render pass leaves on the canvas.  For a rasterizer with
    well-formed bitmaps the render pass never leaves the canvas array, and
    each pixel ends as its initial value or-ed, in glyph order, with the
    bitmap pixel of every glyph whose [DrawGlyph] loops visit it. *)
Theorem render_pass_pixelwise {R : Rasterizer} width height aboveOriginShift
    image glyphCodepoints :
  rasterizer_wf R -> canvas_wf image width height ->
  exists image',
    r_image (render_pass width height aboveOriginShift image glyphCodepoints)
      = Some image' /\
    length image' = length image /\
    forall i j, 0 <= i < width -> 0 <= j < height ->
      image' !! pixel_index width i j =
        or_slots height
          (render_slots width height aboveOriginShift image glyphCodepoints)
          i j
          <$> image !! pixel_index width i j.
Proof.
  intros HR Hc.
  destruct (render_fold_pixelwise width height glyphCodepoints HR
              (render_init aboveOriginShift image) image)
    as (image' & Hf & Hc' & Hp); [done|done|].
  exists image'. split; [done|]. split; [|done].
  destruct Hc as (_ & _ & _ & Hl), Hc' as (_ & _ & _ & Hl'). lia.
Qed.

Lemma render_pass_pixelwise_witness :
  exists image',
    r_image (render_pass (R := sample_rasterizer) 4 3 64 sample_image [7; 7])
      = Some image' /\
    length image' = length sample_image /\
    forall i j, 0 <= i < 4 -> 0 <= j < 3 ->
      image' !! pixel_index 4 i j =
        or_slots 3
          (render_slots (R := sample_rasterizer) 4 3 64 sample_image [7; 7])
          i j
          <$> sample_image !! pixel_index 4 i j.
Proof.
  apply (render_pass_pixelwise (R := sample_rasterizer));
    [exact sample_rasterizer_wf|].
  unfold canvas_wf, INT_MAX; simpl; lia.
Defined.

(** X6: a canvas without pixels.  When the box of the metrics pass is less
    than one pixel wide or high (the width or the height [main] computes is
    zero, the other not negative), [main] allocates an array of no byte,
    draws nothing and prints an image without pixels. *)
Theorem glyph_stage_no_pixel {R : Rasterizer} glyphCodepoints :
  rasterizer_wf R ->
  0 <= canvas_width (m_bbox (metrics_pass glyphCodepoints)) ->
  0 <= canvas_height (m_bbox (metrics_pass glyphCodepoints)) ->
  canvas_width (m_bbox (metrics_pass glyphCodepoints)) = 0 \/
  canvas_height (m_bbox (metrics_pass glyphCodepoints)) = 0 ->
  glyph_stage glyphCodepoints =
    Printed (canvas_width (m_bbox (metrics_pass glyphCodepoints)))
      (canvas_height (m_bbox (metrics_pass glyphCodepoints))) [].
Proof.
  intros HR HW HH Hzero.
  set (m := metrics_pass glyphCodepoints) in *.
  set (W := canvas_width (m_bbox m)) in *.
  set (H := canvas_height (m_bbox m)) in *.
  assert (W * H = 0) as Hp by (destruct Hzero as [-> | ->]; lia).
  destruct (new_uchar_array_wf W H HW HH) as (zeros & Hnew & Hz & Hcz).
  { rewrite Hp. unfold INT_MAX. lia. }
  destruct (render_pass_frame W H glyphCodepoints HR
              (render_init (m_aboveOriginShift m) zeros) zeros)
    as (image' & Hf & Hc' & _); [done|done|].
  unfold glyph_stage. fold m W H. rewrite Hnew. unfold render_pass.
  rewrite Hf. f_equal.
  destruct Hc' as (_ & _ & _ & Hl). rewrite Hp in Hl.
  destruct image'; [done|]. simpl in Hl. lia.
Qed.

Lemma thin_rasterizer_wf : rasterizer_wf thin_rasterizer.
Proof.
  intros t c. split.
  - unfold bitmap_wf, INT_MAX. simpl. lia.
  - apply to_int_range.
Qed.

Lemma glyph_stage_no_pixel_witness :
  glyph_stage (R := thin_rasterizer) [7] = Printed 0 1 [].
Proof.
  apply (glyph_stage_no_pixel (R := thin_rasterizer) [7]);
    [exact thin_rasterizer_wf|vm_compute; discriminate
    |vm_compute; discriminate|left; reflexivity].
Defined.

(** ** The metrics pass *)

Lemma metrics_fold_attained {R : Rasterizer} (f : FT_BBox -> Z) :
  (forall st c,
     f (m_bbox (metrics_step st c)) = f (m_bbox st) \/
     f (m_bbox (metrics_step st c))
     = f (FT_Glyph_Get_CBox (FT_Load_Glyph (m_translation st) c))) ->
  forall glyphCodepoints st,
    f (m_bbox (fold_left metrics_step glyphCodepoints st)) = f (m_bbox st) \/
    exists b,
      b ∈ zip_with
            (fun st codepoint =>
               FT_Glyph_Get_CBox (FT_Load_Glyph (m_translation st) codepoint))
            (states_before metrics_step st glyphCodepoints) glyphCodepoints /\
      f b = f (m_bbox (fold_left metrics_step glyphCodepoints st)).
Proof.
  intros Hstep. induction glyphCodepoints as [|c l IH]; intros st; [by left|].
  simpl. destruct (IH (metrics_step st c)) as [E|(b & Hb & E)].
  - destruct (Hstep st c) as [E'|E'].
    + left. congruence.
    + right. eexists. split; [left|]. congruence.
  - right. exists b. split; [by right|done].
Qed.

(** X7: the box of the metrics pass is the union of the queried control
    boxes and the sentinels.  It reaches as far as every control box the
    pass queried, and each of its four sides is the side of one of them or
    is still the sentinel ([INT_MAX] for a minimum, [INT_MIN] for a
    maximum); no ordering of the boxes is assumed. *)
Theorem metrics_bbox_union {R : Rasterizer} glyphCodepoints :
  let bbox := m_bbox (metrics_pass glyphCodepoints) in
  let boxes := metrics_boxes glyphCodepoints in
  Forall (bbox_contains bbox) boxes /\
  (xMin bbox = INT_MAX \/ exists b, b ∈ boxes /\ xMin b = xMin bbox) /\
  (yMin bbox = INT_MAX \/ exists b, b ∈ boxes /\ yMin b = yMin bbox) /\
  (xMax bbox = INT_MIN \/ exists b, b ∈ boxes /\ xMax b = xMax bbox) /\
  (yMax bbox = INT_MIN \/ exists b, b ∈ boxes /\ yMax b = yMax bbox).
Proof.
  intros bbox boxes. split.
  { apply Forall_forall.
    apply (metrics_fold_contains glyphCodepoints metrics_init). }
  repeat split.
  - apply (metrics_fold_attained xMin); intros st c;
      unfold metrics_step; simpl; bool_cases; auto.
  - apply (metrics_fold_attained yMin); intros st c;
      unfold metrics_step; simpl; bool_cases; auto.
  - apply (metrics_fold_attained xMax); intros st c;
      unfold metrics_step; simpl; rewrite Z.gtb_ltb; bool_cases; auto.
  - apply (metrics_fold_attained yMax); intros st c;
      unfold metrics_step; simpl; rewrite Z.gtb_ltb; bool_cases; auto.
Qed.

Lemma metrics_fold_shift {R : Rasterizer} glyphCodepoints :
  forall st,
    let final := fold_left metrics_step glyphCodepoints st in
    let slots :=
      zip_with (fun st codepoint => FT_Load_Glyph (m_translation st) codepoint)
        (states_before metrics_step st glyphCodepoints) glyphCodepoints in
    m_aboveOriginShift st <= m_aboveOriginShift final /\
    (forall slot, slot ∈ slots -> slot_temp slot <= m_aboveOriginShift final) /\
    (m_aboveOriginShift final = m_aboveOriginShift st \/
     exists slot, slot ∈ slots /\ slot_temp slot = m_aboveOriginShift final).
Proof.
  induction glyphCodepoints as [|c l IH]; intros st; simpl.
  - split; [lia|]. split; [|by left]. intros slot Hs. inversion Hs.
  - destruct (IH (metrics_step st c)) as (Hle & Hall & Hatt).
    assert (m_aboveOriginShift (metrics_step st c)
            = Z.max (slot_temp (FT_Load_Glyph (m_translation st) c))
                (m_aboveOriginShift st)) as Hs.
    { unfold metrics_step, slot_temp. simpl. rewrite Z.gtb_ltb.
      bool_cases. }
    split; [lia|]. split.
    + intros slot Hin. apply elem_of_cons in Hin as [->|Hin]; [lia|].
      by apply Hall.
    + destruct Hatt as [E|(slot & Hin & E)].
      * destruct (Z.max_spec (slot_temp (FT_Load_Glyph (m_translation st) c))
                    (m_aboveOriginShift st)) as [[_ E']|[_ E']].
        -- left. lia.
        -- right. eexists. split; [left|]. lia.
      * right. exists slot. split; [by right|done].
Qed.

(** X8: [aboveOriginShift] is the largest [temp].  After the metrics pass
    it is an [int], it is at least the value [temp] computed from every
    glyph slot the pass loaded, and it is [INT_MIN] or the [temp] of one of
    them. *)
Theorem aboveOriginShift_max {R : Rasterizer} glyphCodepoints :
  let shift := m_aboveOriginShift (metrics_pass glyphCodepoints) in
  int_range shift /\
  (forall slot, slot ∈ metrics_slots glyphCodepoints ->
     slot_temp slot <= shift) /\
  (shift = INT_MIN \/
   exists slot, slot ∈ metrics_slots glyphCodepoints /\
                slot_temp slot = shift).
Proof.
  intros shift.
  destruct (metrics_fold_shift glyphCodepoints metrics_init)
    as (_ & Hall & Hatt).
  split; [|by split].
  apply (aboveOriginShift_range glyphCodepoints metrics_init).
  vm_compute. split; discriminate.
Qed.

(** X9: the metrics pass only grows its results.  The box after a glyph
    sequence followed by more glyphs reaches as far as the box after the
    sequence alone, and [aboveOriginShift] is not smaller. *)
Theorem metrics_pass_grows {R : Rasterizer} glyphCodepoints more :
  bbox_contains (m_bbox (metrics_pass (glyphCodepoints ++ more)))
    (m_bbox (metrics_pass glyphCodepoints)) /\
  m_aboveOriginShift (metrics_pass glyphCodepoints)
  <= m_aboveOriginShift (metrics_pass (glyphCodepoints ++ more)).
Proof.
  unfold metrics_pass. rewrite fold_left_app. split.
  - apply (proj1 (metrics_fold_contains more _)).
  - apply (proj1 (metrics_fold_shift more _)).
Qed.

Lemma metrics_fold_pen {R : Rasterizer} glyphCodepoints :
  advance_fixed R ->
  forall st a b,
    m_translation st = {| vector_x := to_long a; vector_y := to_long b |} ->
    m_translation (fold_left metrics_step glyphCodepoints st) =
      {| vector_x := to_long (a + (advance_sum glyphCodepoints).1);
         vector_y := to_long (b + (advance_sum glyphCodepoints).2) |}.
Proof.
  intros Hadv. induction glyphCodepoints as [|c l IH]; intros st a b Hst.
  - simpl. rewrite !Z.add_0_r. done.
  - simpl.
    rewrite (IH (metrics_step st c)
               (a + vector_x (advance (FT_Load_Glyph
                                         {| vector_x := 0; vector_y := 0 |} c)))
               (b + vector_y (advance (FT_Load_Glyph
                                         {| vector_x := 0; vector_y := 0 |} c)))).
    + f_equal; f_equal; lia.
    + unfold metrics_step. simpl. rewrite Hst.
      rewrite (Hadv _ {| vector_x := 0; vector_y := 0 |} c).
      unfold advance_pen. simpl. by rewrite !to_long_add_l.
Qed.

(** X10: the pen is the sum of the advances.  When the advance of a glyph
    does not depend on the translation, the pen at the end of the metrics
    pass is the sum of the advances of the glyphs, wrapped to [FT_Pos], and
    so is the same for any order of the glyphs. *)
Theorem metrics_pen_sum {R : Rasterizer} glyphCodepoints reordered :
  advance_fixed R ->
  Permutation glyphCodepoints reordered ->
  m_translation (metrics_pass glyphCodepoints) =
    {| vector_x := to_long (advance_sum glyphCodepoints).1;
       vector_y := to_long (advance_sum glyphCodepoints).2 |} /\
  m_translation (metrics_pass reordered)
  = m_translation (metrics_pass glyphCodepoints).
Proof.
  intros Hadv Hperm.
  assert (forall l, m_translation (metrics_pass l) =
            {| vector_x := to_long (advance_sum l).1;
               vector_y := to_long (advance_sum l).2 |}) as Hsum.
  { intros l. by apply (metrics_fold_pen l Hadv metrics_init 0 0). }
  split; [apply Hsum|]. rewrite !Hsum.
  assert (advance_sum reordered = advance_sum glyphCodepoints) as ->; [|done].
  clear Hsum. induction Hperm; simpl.
  - done.
  - by rewrite IHHperm.
  - f_equal; lia.
  - congruence.
Qed.

Lemma metrics_pen_sum_witness :
  m_translation (metrics_pass (R := sample_rasterizer) [7; 8; 9]) =
    {| vector_x := to_long (advance_sum (R := sample_rasterizer) [7; 8; 9]).1;
       vector_y := to_long (advance_sum (R := sample_rasterizer) [7; 8; 9]).2 |}
  /\
  m_translation (metrics_pass (R := sample_rasterizer) [9; 7; 8])
  = m_translation (metrics_pass (R := sample_rasterizer) [7; 8; 9]).
Proof.
  apply (metrics_pen_sum (R := sample_rasterizer) [7; 8; 9] [9; 7; 8]).
  - exact sample_advance_fixed.
  - apply Permutation_sym, (Permutation_cons_app [7; 8] [] 9).
    rewrite app_nil_r. apply Permutation_refl.
Defined.

(** ** PrintPGM *)

(** Invariant rule for [for_count]: [P k] holds after [k] iterations. *)
Lemma for_count_invariant {St : Type} (wrap : Z -> Z) (P : Z -> St -> Prop)
    n i body (s : St) :
  (forall k, 0 <= k < Z.of_nat n -> wrap (i + k + 1) = i + k + 1) ->
  P 0 s ->
  (forall k s0, 0 <= k < Z.of_nat n -> P k s0 ->
     exists s1, body (i + k) s0 = Some s1 /\ P (k + 1) s1) ->
  exists s', for_count wrap n i body s = Some s' /\ P (Z.of_nat n) s'.
Proof.
  revert P i s. induction n as [|n IH]; intros P i s Hwrap H0 Hstep.
  - exists s. split; [done|]. exact H0.
  - destruct (Hstep 0 s) as (s1 & Hb & H1); [lia|done|].
    rewrite Z.add_0_r in Hb. simpl. rewrite Hb. simpl.
    assert (wrap (i + 1) = i + 1) as ->.
    { specialize (Hwrap 0). rewrite Z.add_0_r in Hwrap. apply Hwrap. lia. }
    destruct (IH (fun k => P (k + 1)) (i + 1) s1) as (s' & Hl & HP).
    + intros k Hk. replace (i + 1 + k + 1) with (i + (k + 1) + 1) by lia.
      apply Hwrap. lia.
    + done.
    + intros k s0 Hk HPk.
      destruct (Hstep (k + 1) s0) as (s2 & Hb2 & HP2); [lia|done|].
      exists s2. split; [|done]. rewrite <- Hb2. f_equal. lia.
    + exists s'. split; [done|].
      replace (Z.of_nat (S n)) with (Z.of_nat n + 1) by lia. done.
Qed.

Lemma for_count_skip {St : Type} (wrap : Z -> Z)
    (body : Z -> St -> option St) n :
  (forall i s, body i s = Some s) ->
  forall i s, for_count wrap n i body s = Some s.
Proof.
  intros Hbody. induction n as [|n IH]; intros i s; [done|].
  simpl. rewrite Hbody. simpl. apply IH.
Qed.

(** The inner loop of [PrintPGM] on the row [i] of a canvas. *)
Lemma PrintPGM_row image width height i out :
  canvas_wf image width height -> 0 <= i < height ->
  for_count to_int (Z.to_nat width) 0
    (fun j out =>
       v ← image_read image (to_int (i * width + j));
       Some (out ++ [printf_pixel (byte.unsigned v)]))
    out
  = Some (out ++ ((fun v => printf_pixel (byte.unsigned v))
                    <$> take (Z.to_nat width)
                          (drop (Z.to_nat i * Z.to_nat width) image))).
Proof.
  intros (Hw & Hh & Hwh & Hlen) Hi.
  assert (width <= INT_MAX) by nia.
  destruct (for_count_invariant to_int
    (fun k out' =>
       out' = out ++ ((fun v => printf_pixel (byte.unsigned v))
                        <$> take (Z.to_nat k)
                              (drop (Z.to_nat i * Z.to_nat width) image)))
    (Z.to_nat width) 0
    (fun j out =>
       v ← image_read image (to_int (i * width + j));
       Some (out ++ [printf_pixel (byte.unsigned v)]))
    out) as (out' & Hloop & ->).
  - intros k Hk. apply to_int_small.
    unfold int_range, INT_MIN, INT_MAX in *. lia.
  - simpl. by rewrite app_nil_r.
  - intros k s0 Hk ->. rewrite Z.add_0_l.
    pose proof (pixel_index_lt width height k i) as Hidx.
    rewrite to_int_small by (unfold int_range, INT_MIN, INT_MAX in *; lia).
    unfold image_read. destruct (Z.leb_spec 0 (i * width + k)); [|lia].
    destruct (lookup_lt_is_Some_2 image (Z.to_nat (i * width + k)))
      as [v Hv]; [lia|].
    rewrite Hv. simpl. eexists. split; [done|].
    rewrite <- app_assoc. f_equal.
    replace (Z.to_nat (k + 1)) with (S (Z.to_nat k)) by lia.
    rewrite (take_S_r _ _ v), fmap_app; [done|].
    rewrite lookup_drop, <- Hv. f_equal. nia.
  - rewrite Hloop. by rewrite Z2Nat.id by lia.
Qed.

Lemma pixel_values_app out out' :
  pixel_values (out ++ out') = pixel_values out ++ pixel_values out'.
Proof. apply omap_app. Qed.

Lemma newlines_app out out' :
  newlines (out ++ out') = (newlines out + newlines out')%nat.
Proof. unfold newlines. by rewrite omap_app, length_app. Qed.

Lemma pixel_values_pixel v out :
  pixel_values (printf_pixel v :: out) = v :: pixel_values out.
Proof. reflexivity. Qed.

Lemma newlines_pixel v out : newlines (printf_pixel v :: out) = newlines out.
Proof. reflexivity. Qed.

Lemma pgm_row_values image width i :
  pixel_values (pgm_row image width i) =
    byte.unsigned <$> take (Z.to_nat width) (drop (i * Z.to_nat width) image)
  /\ newlines (pgm_row image width i) = 1%nat.
Proof.
  unfold pgm_row. rewrite pixel_values_app, newlines_app.
  generalize (take (Z.to_nat width) (drop (i * Z.to_nat width) image)).
  intros l. change (pixel_values [putchar_newline]) with (@nil Z).
  change (newlines [putchar_newline]) with 1%nat.
  rewrite app_nil_r. split.
  - induction l as [|v l IH]; [done|].
    rewrite !fmap_cons, pixel_values_pixel. by rewrite IH.
  - induction l as [|v l IH]; [done|].
    rewrite fmap_cons, newlines_pixel. exact IH.
Qed.

(** A list cut in [h] rows of [w] elements and put together again. *)
Lemma concat_rows {A : Type} (w h : nat) :
  forall l : list A, length l = (w * h)%nat ->
    concat ((fun i => take w (drop (i * w) l)) <$> seq 0 h) = l.
Proof.
  induction h as [|h IH]; intros l Hl.
  - simpl. destruct l; [done|]. simpl in Hl. lia.
  - cbn [seq]. rewrite fmap_cons, <- fmap_S_seq, <- list_fmap_compose.
    cbn [concat]. rewrite drop_0.
    transitivity (take w l ++ drop w l); [|apply take_drop].
    f_equal. rewrite <- (IH (drop w l)) by (rewrite length_drop; lia).
    f_equal. apply list_fmap_ext. intros k i _. simpl.
    by rewrite drop_drop.
Qed.

Lemma PrintPGM_spec image width height :
  canvas_wf image width height -> height <= INT_MAX ->
  PrintPGM image width height =
    Some ([printf_P2; printf_size width height; printf_255]
          ++ concat (pgm_row image width <$> seq 0 (Z.to_nat height))).
Proof.
  intros Hc Hh. pose proof Hc as (Hw & Hh0 & _).
  unfold PrintPGM.
  destruct (for_count_invariant to_int
    (fun k out =>
       out = [printf_P2; printf_size width height; printf_255]
             ++ concat (pgm_row image width <$> seq 0 (Z.to_nat k)))
    (Z.to_nat height) 0
    (fun i out =>
       out' ← for_count to_int (Z.to_nat width) 0
                (fun j out =>
                   v ← image_read image (to_int (i * width + j));
                   Some (out ++ [printf_pixel (byte.unsigned v)]))
                out;
       Some (out' ++ [putchar_newline]))
    [printf_P2; printf_size width height; printf_255])
    as (out & Hloop & ->).
  - intros k Hk. apply to_int_small.
    unfold int_range, INT_MIN, INT_MAX in *. lia.
  - done.
  - intros k s0 Hk ->. rewrite Z.add_0_l.
    rewrite (PrintPGM_row image width height k) by (done || lia).
    simpl. eexists. split; [done|].
    replace (Z.to_nat (k + 1)) with (S (Z.to_nat k)) by lia.
    rewrite seq_S, fmap_app, concat_app. simpl.
    rewrite app_nil_r. unfold pgm_row at 3. rewrite <- !app_assoc. done.
  - rewrite Hloop. by rewrite Z2Nat.id by lia.
Qed.

Lemma pgm_rows_values image width height :
  canvas_wf image width height ->
  pixel_values (concat (pgm_row image width <$> seq 0 (Z.to_nat height)))
  = byte.unsigned <$> image /\
  newlines (concat (pgm_row image width <$> seq 0 (Z.to_nat height)))
  = Z.to_nat height.
Proof.
  intros (Hw & Hh & Hwh & Hlen).
  assert (length image = (Z.to_nat width * Z.to_nat height)%nat) as Hl by nia.
  rewrite <- (concat_rows (Z.to_nat width) (Z.to_nat height) image Hl) at 2.
  clear Hl Hlen. generalize (Z.to_nat height). intros h.
  induction h as [|h [IH1 IH2]]; [done|].
  rewrite seq_S, !fmap_app, !concat_app, pixel_values_app, newlines_app.
  rewrite fmap_app, IH1, IH2. simpl. rewrite !app_nil_r.
  destruct (pgm_row_values image width h) as [-> ->]. split; [done|lia].
Qed.

(** X11: what [PrintPGM] prints.  For a canvas of [width * height] bytes it
    reads no byte outside the canvas and prints the three header calls and
    then, row after row, the [width] bytes of the row followed by a line
    end; the values printed, in order, are the bytes of the canvas, none
    above the 255 of the header, and there are [height] line ends. *)
Theorem PrintPGM_output image width height :
  canvas_wf image width height -> height <= INT_MAX ->
  exists out,
    PrintPGM image width height = Some out /\
    out = [printf_P2; printf_size width height; printf_255]
          ++ concat (pgm_row image width <$> seq 0 (Z.to_nat height)) /\
    pixel_values out = byte.unsigned <$> image /\
    Forall (fun v => 0 <= v <= 255) (pixel_values out) /\
    newlines out = Z.to_nat height.
Proof.
  intros Hc Hh. eexists. split; [by apply PrintPGM_spec|]. split; [done|].
  rewrite pixel_values_app, newlines_app.
  destruct (pgm_rows_values image width height Hc) as [-> ->].
  split; [done|]. split; [|done]. simpl.
  apply Forall_fmap, Forall_forall. intros v _. simpl.
  pose proof (byte.unsigned_range v). lia.
Qed.

Lemma PrintPGM_output_witness :
  exists out,
    PrintPGM sample_image 4 3 = Some out /\
    out = [printf_P2; printf_size 4 3; printf_255]
          ++ concat (pgm_row sample_image 4 <$> seq 0 (Z.to_nat 3)) /\
    pixel_values out = byte.unsigned <$> sample_image /\
    Forall (fun v => 0 <= v <= 255) (pixel_values out) /\
    newlines out = Z.to_nat 3.
Proof.
  apply PrintPGM_output; unfold canvas_wf, INT_MAX; simpl; lia.
Defined.

(** X12: the output determines the canvas.  Two canvases of the same
    dimensions for which [PrintPGM] makes the same calls are equal. *)
Theorem PrintPGM_injective image image' width height :
  canvas_wf image width height -> canvas_wf image' width height ->
  height <= INT_MAX ->
  PrintPGM image width height = PrintPGM image' width height ->
  image = image'.
Proof.
  intros Hc Hc' Hh E.
  destruct (PrintPGM_output image width height Hc Hh)
    as (out & Ho & _ & Hv & _).
  destruct (PrintPGM_output image' width height Hc' Hh)
    as (out' & Ho' & _ & Hv' & _).
  assert (out = out') as <- by congruence.
  rewrite Hv in Hv'.
  eapply (inj (fmap byte.unsigned)). exact Hv'.
  Unshelve. apply list_fmap_eq_inj. intros a b. apply byte.unsigned_inj.
Qed.

Lemma PrintPGM_injective_witness : sample_image = sample_image.
Proof.
  apply (PrintPGM_injective sample_image sample_image 4 3);
    try (unfold canvas_wf, INT_MAX; simpl; lia).
  reflexivity.
Defined.

(** X13: a canvas without area is not read.  When [width] or [height] is
    zero or negative, [PrintPGM] reads no byte of the image, whatever the
    image is, and prints the header followed by one line end for each row
    (none when [height] is not positive). *)
Theorem PrintPGM_no_area image width height :
  width <= 0 \/ height <= 0 -> height <= INT_MAX ->
  PrintPGM image width height =
    Some ([printf_P2; printf_size width height; printf_255]
          ++ replicate (Z.to_nat height) putchar_newline).
Proof.
  intros Hno Hh. unfold PrintPGM.
  destruct (Z.le_gt_cases height 0) as [Hle|Hgt].
  { replace (Z.to_nat height) with 0%nat by lia. done. }
  assert (width <= 0) as Hw by lia.
  replace (Z.to_nat width) with 0%nat by lia.
  destruct (for_count_invariant to_int
    (fun k out =>
       out = [printf_P2; printf_size width height; printf_255]
             ++ replicate (Z.to_nat k) putchar_newline)
    (Z.to_nat height) 0
    (fun i out =>
       out' ← for_count to_int 0 0
                (fun j out =>
                   v ← image_read image (to_int (i * width + j));
                   Some (out ++ [printf_pixel (byte.unsigned v)]))
                out;
       Some (out' ++ [putchar_newline]))
    [printf_P2; printf_size width height; printf_255])
    as (out & Hloop & ->).
  - intros k Hk. apply to_int_small.
    unfold int_range, INT_MIN, INT_MAX in *. lia.
  - done.
  - intros k s0 Hk ->. simpl. eexists. split; [done|].
    replace (Z.to_nat (k + 1)) with (S (Z.to_nat k)) by lia.
    by rewrite replicate_S_end.
  - rewrite Hloop. by rewrite Z2Nat.id by lia.
Qed.

Lemma PrintPGM_no_area_witness :
  PrintPGM [] (-2) 3 =
    Some ([printf_P2; printf_size (-2) 3; printf_255]
          ++ replicate (Z.to_nat 3) putchar_newline).
Proof. apply PrintPGM_no_area; unfold INT_MAX; lia. Defined.

(** X14: [main] prints its whole canvas.  For a rasterizer with well-formed
    bitmaps, when the dimensions [W] and [H] that [main] computes are those
    of an array, [main] ends in [PrintPGM], which reads inside the canvas
    and prints [W * H] values, the bytes of the canvas, on [H] lines. *)
Theorem main_prints_canvas {R : Rasterizer} glyphCodepoints :
  rasterizer_wf R ->
  0 <= canvas_width (m_bbox (metrics_pass glyphCodepoints)) ->
  0 <= canvas_height (m_bbox (metrics_pass glyphCodepoints)) ->
  canvas_width (m_bbox (metrics_pass glyphCodepoints))
  * canvas_height (m_bbox (metrics_pass glyphCodepoints)) <= INT_MAX ->
  exists image out,
    glyph_stage glyphCodepoints =
      Printed (canvas_width (m_bbox (metrics_pass glyphCodepoints)))
        (canvas_height (m_bbox (metrics_pass glyphCodepoints))) image /\
    stdout_of (glyph_stage glyphCodepoints) = Some out /\
    pixel_values out = byte.unsigned <$> image /\
    Z.of_nat (length (pixel_values out)) =
      canvas_width (m_bbox (metrics_pass glyphCodepoints))
      * canvas_height (m_bbox (metrics_pass glyphCodepoints)) /\
    Z.of_nat (newlines out)
    = canvas_height (m_bbox (metrics_pass glyphCodepoints)).
Proof.
  intros HR HW HH HWH.
  set (m := metrics_pass glyphCodepoints) in *.
  set (W := canvas_width (m_bbox m)) in *.
  set (H := canvas_height (m_bbox m)) in *.
  destruct (new_uchar_array_wf W H HW HH HWH) as (zeros & Hnew & Hz & Hcz).
  destruct (render_pass_frame W H glyphCodepoints HR
              (render_init (m_aboveOriginShift m) zeros) zeros)
    as (image & Hf & Hc & _); [done|done|].
  assert (glyph_stage glyphCodepoints = Printed W H image) as Hg.
  { unfold glyph_stage. fold m W H. rewrite Hnew. unfold render_pass.
    by rewrite Hf. }
  assert (H <= INT_MAX) as HHmax.
  { pose proof (to_int_range
                  (Z.quot (to_long (yMax (m_bbox m) - yMin (m_bbox m))) 64))
      as Hr. fold (canvas_height (m_bbox m)) in Hr. fold H in Hr.
    apply Hr. }
  destruct (PrintPGM_output image W H Hc HHmax)
    as (out & Ho & _ & Hv & _ & Hn).
  exists image, out. rewrite Hg. simpl.
  split; [done|]. split; [done|]. split; [done|].
  rewrite Hv, length_fmap, Hn. destruct Hc as (_ & _ & _ & Hl). lia.
Qed.

Lemma main_prints_canvas_witness :
  exists image out,
    glyph_stage (R := sample_rasterizer) [7; 7] = Printed 4 2 image /\
    stdout_of (glyph_stage (R := sample_rasterizer) [7; 7]) = Some out /\
    pixel_values out = byte.unsigned <$> image /\
    Z.of_nat (length (pixel_values out)) = 4 * 2 /\
    Z.of_nat (newlines out) = 2.
Proof.
  apply (main_prints_canvas (R := sample_rasterizer) [7; 7]);
    [exact sample_rasterizer_wf|..]; vm_compute; discriminate.
Defined.

(** ** The glyph copy loop *)

(** X15: the copy loop copies.  For a shaped buffer of [glyphCount] glyph
    infos (an [unsigned int] count), the loop of [main] stays inside both
    arrays and leaves in [glyphCodepoints] the glyph indices of the infos,
    as many and in the same order. *)
Theorem copy_codepoints_map glyphInfos :
  Z.of_nat (length glyphInfos) < 2 ^ 32 ->
  copy_codepoints glyphInfos (Z.of_nat (length glyphInfos))
  = Some (codepoint <$> glyphInfos).
Proof.
  intros Hn. unfold copy_codepoints. rewrite Nat2Z.id.
  set (n := length glyphInfos) in *.
  destruct (for_count_invariant to_uint
    (fun k v =>
       v = (codepoint <$> take (Z.to_nat k) glyphInfos)
           ++ replicate (n - Z.to_nat k) 0)
    n 0
    (fun i glyphCodepoints =>
       info ← glyphInfos !! Z.to_nat i;
       if i <? Z.of_nat (length glyphCodepoints)
       then Some (<[Z.to_nat i := codepoint info]> glyphCodepoints)
       else None)
    (replicate n 0)) as (v & Hloop & ->).
  - intros k Hk. unfold to_uint. apply Z.mod_small. lia.
  - simpl. by rewrite Nat.sub_0_r.
  - intros k s0 Hk ->. rewrite Z.add_0_l.
    destruct (lookup_lt_is_Some_2 glyphInfos (Z.to_nat k)) as [info Hi];
      [fold n; lia|].
    rewrite Hi. simpl.
    assert (length (take (Z.to_nat k) glyphInfos) = Z.to_nat k) as Hlt
      by (rewrite length_take; fold n; lia).
    rewrite length_app, length_fmap, Hlt, length_replicate.
    destruct (Z.ltb_spec k (Z.of_nat (Z.to_nat k + (n - Z.to_nat k))));
      [|lia].
    eexists. split; [done|].
    replace (Z.to_nat (k + 1)) with (S (Z.to_nat k)) by lia.
    rewrite (take_S_r _ _ info Hi), fmap_app, <- app_assoc.
    rewrite insert_app_r_alt by (rewrite length_fmap; lia).
    rewrite length_fmap, Hlt, Nat.sub_diag.
    replace (n - Z.to_nat k)%nat with (S (n - S (Z.to_nat k))) by lia.
    done.
  - rewrite Hloop, Nat2Z.id, Nat.sub_diag, app_nil_r.
    unfold n. by rewrite firstn_all.
Qed.

Lemma copy_codepoints_map_witness :
  copy_codepoints
    [ {| codepoint := 5; mask := 0; cluster := 0 |};
      {| codepoint := 9; mask := 0; cluster := 1 |} ] 2
  = Some [5; 9].
Proof.
  apply (copy_codepoints_map
           [ {| codepoint := 5; mask := 0; cluster := 0 |};
             {| codepoint := 9; mask := 0; cluster := 1 |} ]).
  simpl. lia.
Defined.

(** ** The conversion buffers *)

(** X17: the first conversion buffer is always large enough.  The
    [str.length () + 1] code units allocated for the conversion to UTF-16
    hold the UTF-16 form of any text and its terminator: no character has
    more UTF-16 code units than UTF-8 bytes. *)
Theorem utf16_buffer_large_enough text :
  Z.of_nat (length (utf16_encode text)) + 1
  <= utf16_capacity (utf8_encode text) /\
  (length (utf16_encode text) <= length (utf8_encode text))%nat.
Proof.
  split; [apply utf16_buffer_sufficient|].
  pose proof (utf16_buffer_sufficient text) as H.
  unfold utf16_capacity in H. lia.
Qed.

Lemma encoded_length_difference text :
  Z.of_nat (length (utf8_encode text))
  - utf8_capacity (Z.of_nat (length (utf16_encode text)))
  = count_three_bytes text - count_ascii text.
Proof.
  unfold utf8_capacity, utf16_encode, utf8_encode, count_three_bytes,
    count_ascii.
  induction text as [|c text IH]; [done|].
  rewrite !fmap_cons. cbn [concat]. rewrite !length_app, !filter_cons.
  set (bytes := length (concat (utf8_encode_point <$> text))) in *.
  set (units := length (concat (utf16_encode_point <$> text))) in *.
  set (threes := length (filter (fun c => 2048 <= c < 65536) text)) in *.
  set (ones := length (filter (fun c => c < 128) text)) in *.
  unfold utf16_encode_point, utf8_encode_point.
  destruct (Z.ltb_spec c 128), (Z.ltb_spec c 2048), (Z.ltb_spec c 65536);
    repeat case_decide; simpl length; lia.
Qed.

(** X18: when the second conversion buffer is large enough.  The
    [length * 2] bytes allocated for the conversion back to UTF-8 hold the
    UTF-8 form of a text exactly when the text has no more characters from
    U+0800 to U+FFFF (three bytes for one code unit) than characters below
    U+0080 (one byte for one code unit). *)
Theorem utf8_buffer_large_enough_iff text :
  Z.of_nat (length (utf8_encode text))
  <= utf8_capacity (Z.of_nat (length (utf16_encode text)))
  <-> count_three_bytes text <= count_ascii text.
Proof. pose proof (encoded_length_difference text). lia. Qed.

(** ** The canvas main prints *)

(** X19: the canvas [main] prints, pixel by pixel.  For a rasterizer with
    well-formed bitmaps, when the dimensions [W] and [H] that [main]
    computes are those of an array, each pixel of the printed canvas is zero
    or-ed, in glyph order, with the bitmap pixel of every glyph of the
    render pass whose [DrawGlyph] loops visit it. *)
Theorem main_canvas_pixels {R : Rasterizer} glyphCodepoints :
  rasterizer_wf R ->
  0 <= canvas_width (m_bbox (metrics_pass glyphCodepoints)) ->
  0 <= canvas_height (m_bbox (metrics_pass glyphCodepoints)) ->
  canvas_width (m_bbox (metrics_pass glyphCodepoints))
  * canvas_height (m_bbox (metrics_pass glyphCodepoints)) <= INT_MAX ->
  let m := metrics_pass glyphCodepoints in
  let W := canvas_width (m_bbox m) in
  let H := canvas_height (m_bbox m) in
  exists image,
    glyph_stage glyphCodepoints = Printed W H image /\
    forall i j, 0 <= i < W -> 0 <= j < H ->
      image !! pixel_index W i j =
        Some (or_slots H
                (render_slots W H (m_aboveOriginShift m)
                   (replicate (Z.to_nat (W * H)) Byte.x00) glyphCodepoints)
                i j Byte.x00).
Proof.
  intros HR HW HH HWH m W H. fold m in HW, HH, HWH.
  fold W in HW, HWH. fold H in HH, HWH.
  destruct (new_uchar_array_wf W H HW HH HWH) as (zeros & Hnew & Hz & Hcz).
  destruct (render_fold_pixelwise W H glyphCodepoints HR
              (render_init (m_aboveOriginShift m) zeros) zeros)
    as (image & Hf & Hc & Hp); [done|done|].
  exists image. split.
  { unfold glyph_stage. fold m W H. rewrite Hnew. unfold render_pass.
    by rewrite Hf. }
  intros i j Hi Hj. rewrite (Hp i j Hi Hj). unfold render_slots.
  rewrite <- Hz.
  assert (zeros !! pixel_index W i j = Some Byte.x00) as ->; [|done].
  rewrite Hz. apply lookup_replicate_2. unfold pixel_index.
  pose proof (pixel_index_lt W H i j Hi Hj). lia.
Qed.

Lemma main_canvas_pixels_witness :
  exists image,
    glyph_stage (R := sample_rasterizer) [7; 7] = Printed 4 2 image /\
    forall i j, 0 <= i < 4 -> 0 <= j < 2 ->
      image !! pixel_index 4 i j =
        Some (or_slots 2
                (render_slots (R := sample_rasterizer) 4 2 64
                   (replicate (Z.to_nat (4 * 2)) Byte.x00) [7; 7])
                i j Byte.x00).
Proof.
  apply (main_canvas_pixels (R := sample_rasterizer) [7; 7]);
    [exact sample_rasterizer_wf|..]; vm_compute; discriminate.
Defined.
